(** * Dragonfly2 scheduler core: task registry, peer graph, priority
      resolution and piece download, embedded in Rocq.

    Part I holds the embedding (one module per Go package or type), Part II
    the properties.  [scheduler/resource/task_manager.go] is translated from
    its source.  The types it uses but does not declare ([Task], its FSM and
    its peer graph), [Peer.GetPriority] and the piece downloader live in
    files that are not part of the sources at hand; their definitions are
    marked "Modelled from the spec". *)

From Stdlib Require Import Ascii.
From stdpp Require Import gmap strings list functions sorting pretty.

(* ===================================================================== *)
(** * Part I: the embedding                                               *)
(* ===================================================================== *)

(** ** Go calls that may panic *)

(** A Go call either returns or panics (nil dereference, failed unchecked
    type assertion).  [Panic] carries the runtime message. *)
Inductive result (A : Type) : Type :=
| Ok (a : A)
| Panic (why : string).
Arguments Ok {A} a.
Arguments Panic {A} why.

#[global] Instance result_ret : MRet result := λ A a, Ok a.
#[global] Instance result_bind : MBind result := λ A B f c,
  match c with
  | Ok a => f a
  | Panic why => Panic why
  end.

(** ** The peer graph of a task *)

Module dag.

(** Modelled from the spec: the directed graph of section 3 and 4.3 (the
    graph package and [Task]'s graph methods are not among the sources).
    Vertices are peer IDs; an edge [(parent, child)] means that the child
    fetches pieces from the parent. *)
Record graph : Type := {
  vertices : list string;
  edges : list (string * string)
}.

(** Modelled from the spec: the graph of a task no peer has joined yet. *)
Definition empty : graph := {| vertices := []; edges := [] |}.

(** Modelled from the spec: the error kinds of section 7 that the graph
    raises.  [CycleError] rejects an edge to keep the graph acyclic;
    [PeerNotInTask] is the outcome when the precondition of [AddEdge]
    (both peers are nodes of the task) does not hold. *)
Inductive Error : Type :=
| CycleError
| PeerNotInTask.

#[global] Instance Error_eq_dec : EqDecision Error.
Proof. solve_decision. Defined.

(** Modelled from the spec: "idempotently add a node; no-op if already
    present". *)
Definition AddVertex (id : string) (g : graph) : graph :=
  if bool_decide (id ∈ vertices g) then g
  else {| vertices := vertices g ++ [id]; edges := edges g |}.

(** Modelled from the spec: the node count, "a task's peer count is the
    node count of its graph". *)
Definition VertexCount (g : graph) : nat := length (vertices g).

(** Modelled from the spec: the "depth/breadth-first traversal bounded by
    node count": a depth-first walk along the edges that gives up after
    [fuel] vertices on the current walk. *)
Fixpoint search (fuel : nat) (es : list (string * string)) (from to : string) : bool :=
  match fuel with
  | O => false
  | S fuel' =>
      bool_decide (from = to)
      || existsb (λ e, bool_decide (e.1 = from) && search fuel' es e.2 to) es
  end.

(** Modelled from the spec: the reachability check of [AddPeerEdge], the
    traversal with the node count as its bound. *)
Definition reachable (g : graph) (from to : string) : bool :=
  search (VertexCount g) (edges g) from to.

(** Modelled from the spec: [AddPeerEdge]'s algorithm.  Self-edges are
    rejected unconditionally; both ends must be nodes of the graph; if the
    parent is reachable from the child the edge would close a cycle and is
    rejected.  The graph comes back unchanged together with the error, or
    extended by the edge together with no error.  The edges form a set: an
    edge that is already present is not inserted twice. *)
Definition AddEdge (from to : string) (g : graph) : graph * option Error :=
  if bool_decide (from = to) then (g, Some CycleError)
  else if negb (bool_decide (from ∈ vertices g) && bool_decide (to ∈ vertices g))
  then (g, Some PeerNotInTask)
  else if reachable g to from then (g, Some CycleError)
  else if bool_decide ((from, to) ∈ edges g) then (g, None)
  else ({| vertices := vertices g; edges := edges g ++ [(from, to)] |}, None).

(** Modelled from the spec: [Parents], the in-neighbours of a node as a
    snapshot sequence. *)
Definition Parents (id : string) (g : graph) : list string :=
  (filter (λ e, e.2 = id) (edges g)).*1.

(** Modelled from the spec: [Children], the out-neighbours of a node as a
    snapshot sequence. *)
Definition Children (id : string) (g : graph) : list string :=
  (filter (λ e, e.1 = id) (edges g)).*2.

(** The edge relation and what "no cycle" means. *)
Definition edge (g : graph) (a b : string) : Prop := (a, b) ∈ edges g.

Definition acyclic (g : graph) : Prop :=
  ∀ a b, edge g a b → ¬ rtc (edge g) b a.

(** A topological ordering: every vertex exactly once, every edge pointing
    forward. *)
Definition topological (g : graph) (order : list string) : Prop :=
  order ≡ₚ vertices g ∧
  ∀ a b, edge g a b →
    ∃ i j, order !! i = Some a ∧ order !! j = Some b ∧ i < j.

(** The number of vertices from which [a] can be reached; it grows strictly
    along every edge of an acyclic graph. *)
Definition rank (g : graph) (a : string) : nat :=
  length (filter (λ v, reachable g v a = true) (vertices g)).

Definition rank_le (g : graph) (a b : string) : Prop := rank g a ≤ rank g b.

#[global] Instance rank_le_dec g : RelDecision (rank_le g).
Proof. intros a b. unfold rank_le. apply _. Defined.

Definition toposort (g : graph) : list string :=
  merge_sort (rank_le g) (vertices g).

(** What the graph operations maintain: every vertex is listed once, edges
    join vertices of the graph, and there is no cycle. *)
Definition wellFormed (g : graph) : Prop :=
  NoDup (vertices g) ∧
  (∀ a b, edge g a b → a ∈ vertices g ∧ b ∈ vertices g) ∧
  acyclic g.

End dag.

(** ** The task state machine *)

Module fsm.

(** Modelled from the spec: the task states of section 4.1 (declared next
    to [Task], which is not among the sources). *)
Inductive State : Type :=
| TaskStatePending
| TaskStateRunning
| TaskStateSeeding
| TaskStateSucceeded
| TaskStateFailed
| TaskStateLeave.

(** Modelled from the spec: the named events of section 4.1. *)
Inductive EventName : Type :=
| TaskEventDownload
| TaskEventSeed
| TaskEventSucceed
| TaskEventFail
| TaskEventLeave.

#[global] Instance State_eq_dec : EqDecision State.
Proof. solve_decision. Defined.

#[global] Instance EventName_eq_dec : EqDecision EventName.
Proof. solve_decision. Defined.

(** Modelled from the spec: "Invalid transitions (event not defined for
    current state) fail with a StateTransitionError identifying current
    state and attempted event". *)
Inductive Error : Type :=
| StateTransitionError (current : State) (event : EventName).

(** Modelled from the spec: the machine a task owns, its current state and
    the transition table (state and event to next state, or no entry) it
    was built with. *)
Record FSM : Type := {
  current : State;
  transitions : EventName → State → option State
}.

(** Modelled from the spec: the machine's current state, [FSM.Current]. *)
Definition Current (f : FSM) : State := current f.

(** Modelled from the spec: [FSM.Is], whether the machine is in state [s]. *)
Definition Is (f : FSM) (s : State) : bool := bool_decide (current f = s).

(** Modelled from the spec: [FSM.Event].  Firing an event either moves the
    machine or reports the transition error and leaves it where it was. *)
Definition Event (f : FSM) (e : EventName) : FSM * option Error :=
  match transitions f e (current f) with
  | Some dst => ({| current := dst; transitions := transitions f |}, None)
  | None => (f, Some (StateTransitionError (current f) e))
  end.

(** Modelled from the spec: the table of section 4.1.  Download starts a
    pending task, Seed, Succeed and Fail leave Running, and Leave is
    defined for every state but Leave itself. *)
Definition taskTransitions (e : EventName) (src : State) : option State :=
  match e, src with
  | TaskEventDownload, TaskStatePending => Some TaskStateRunning
  | TaskEventSeed, TaskStateRunning => Some TaskStateSeeding
  | TaskEventSucceed, TaskStateRunning => Some TaskStateSucceeded
  | TaskEventFail, TaskStateRunning => Some TaskStateFailed
  | TaskEventLeave, TaskStateLeave => None
  | TaskEventLeave, _ => Some TaskStateLeave
  | _, _ => None
  end.

(** Modelled from the spec: the machine a new task is given. *)
Definition NewFSM (initial : State) : FSM :=
  {| current := initial; transitions := taskTransitions |}.

End fsm.

(** ** scheduler/resource: tasks and the task manager *)

Module resource.

(** GC task id. *)
Definition GCTaskID : string := "task".

(** Modelled from the spec: the part of [Task] (section 3) that the task
    manager and priority resolution read; the struct is declared in a file
    that is not among the sources.  [FSM] is the task's state machine and
    [DAG] its peer graph. *)
Record Task : Type := {
  ID : string;
  URL : string;
  FSM : fsm.FSM;
  DAG : dag.graph
}.

(** Modelled from the spec: [NewTask], a pending task without peers. *)
Definition NewTask (id url : string) : Task :=
  {| ID := id; URL := url; FSM := fsm.NewFSM fsm.TaskStatePending; DAG := dag.empty |}.

(** Modelled from the spec: [StorePeer] of section 4.3, on the graph the
    task owns.  Peers are named by their IDs. *)
Definition StorePeer (peer : string) (t : Task) : Task :=
  {| ID := ID t; URL := URL t; FSM := FSM t; DAG := dag.AddVertex peer (DAG t) |}.

(** Modelled from the spec: [AddPeerEdge] of section 4.3; the task comes
    back with the graph as [dag.AddEdge] leaves it, next to the error. *)
Definition AddPeerEdge (parent child : string) (t : Task) : Task * option dag.Error :=
  let '(g, err) := dag.AddEdge parent child (DAG t) in
  ({| ID := ID t; URL := URL t; FSM := FSM t; DAG := g |}, err).

(** Modelled from the spec: [PeerCount], the node count of the graph. *)
Definition PeerCount (t : Task) : nat := dag.VertexCount (DAG t).

(** The calls that change a task's graph, and a sequence of them applied to
    a task; a rejected [AddPeerEdge] returns its error and the call
    sequence goes on. *)
Inductive GraphCall : Type :=
| CallStorePeer (peer : string)
| CallAddPeerEdge (parent child : string).

Definition graphCall (t : Task) (c : GraphCall) : Task :=
  match c with
  | CallStorePeer peer => StorePeer peer t
  | CallAddPeerEdge parent child => (AddPeerEdge parent child t).1
  end.

Definition graphCalls (cs : list GraphCall) (t : Task) : Task :=
  foldl graphCall t cs.

(** A [*Task] is [nil] or the address of a task; the heap gives the task
    behind every address.  What [sync.Map] holds is an [any]: a [*Task]
    or a value of some other dynamic type. *)
Definition loc : Type := positive.

Inductive any : Type :=
| TaskPtr (task : option loc)
| NotTask.

(** What the tasks' loggers have written. *)
Inductive LogLine : Type :=
| LogInfo (task : loc) (msg : string)
| LogErrorf (task : loc) (format : string) (err : fsm.Error).

(** The state the task manager works on: the tasks behind the pointers,
    the manager's [sync.Map] and the log. *)
Record state : Type := {
  heap : loc → Task;
  Map : gmap string any;
  log : list LogLine
}.

(** New task manager interface: [Map: &sync.Map{}]. *)
Definition newTaskManager (h : loc → Task) : state :=
  {| heap := h; Map := ∅; log := [] |}.

(** The unchecked type assertion of [rawTask] to a task pointer. *)
Definition assertTask (rawTask : any) : result (option loc) :=
  match rawTask with
  | TaskPtr task => Ok task
  | NotTask => Panic "interface conversion: interface {} is not *resource.Task"
  end.

Definition nilDereference : string :=
  "invalid memory address or nil pointer dereference".

Definition Load (key : string) (σ : state) : result (option loc * bool) :=
  match Map σ !! key with
  | None => Ok (None, false)
  | Some rawTask => task ← assertTask rawTask; Ok (task, true)
  end.

Definition Store (task : option loc) (σ : state) : result state :=
  match task with
  | None => Panic nilDereference
  | Some l =>
      Ok {| heap := heap σ;
            Map := <[ID (heap σ l) := TaskPtr task]> (Map σ);
            log := log σ |}
  end.

Definition LoadOrStore (task : option loc) (σ : state)
  : result (option loc * bool * state) :=
  match task with
  | None => Panic nilDereference
  | Some l =>
      match Map σ !! ID (heap σ l) with
      | Some rawTask => stored ← assertTask rawTask; Ok (stored, true, σ)
      | None =>
          Ok (task, false,
              {| heap := heap σ;
                 Map := <[ID (heap σ l) := TaskPtr task]> (Map σ);
                 log := log σ |})
      end
  end.

Definition Delete (key : string) (σ : state) : state :=
  {| heap := heap σ; Map := delete key (Map σ); log := log σ |}.

Definition logInfo (l : loc) (msg : string) (σ : state) : state :=
  {| heap := heap σ; Map := Map σ; log := log σ ++ [LogInfo l msg] |}.

Definition logErrorf (l : loc) (format : string) (err : fsm.Error) (σ : state) : state :=
  {| heap := heap σ; Map := Map σ; log := log σ ++ [LogErrorf l format err] |}.

(** The task at [l] with its state machine replaced: what [task.FSM.Event]
    does to the task in place. *)
Definition setFSM (l : loc) (f : fsm.FSM) (σ : state) : state :=
  let t := heap σ l in
  {| heap := <[l := {| ID := ID t; URL := URL t; FSM := f; DAG := DAG t |}]> (heap σ);
     Map := Map σ;
     log := log σ |}.

(** The task with the Leave event fired on its state machine. *)
Definition fireLeave (t : Task) : Task :=
  {| ID := ID t; URL := URL t;
     FSM := (fsm.Event (FSM t) fsm.TaskEventLeave).1; DAG := DAG t |}.

(** What a visit of the sweep leaves of the task it looks at. *)
Definition afterVisit (t : Task) : Task :=
  if fsm.Is (FSM t) fsm.TaskStateLeave then t
  else if PeerCount t =? 0 then fireLeave t
  else t.

(** [sync.Map.Range]: the keys are visited in some order [order], each at
    most once; a key whose entry is gone by the time its turn comes is
    skipped; the walk stops when the callback returns false. *)
Fixpoint Range (f : string → any → state → result (bool * state))
    (order : list string) (σ : state) : result state :=
  match order with
  | [] => Ok σ
  | key :: order' =>
      match Map σ !! key with
      | None => Range f order' σ
      | Some value =>
          '(continue, σ') ← f key value σ;
          if continue : bool then Range f order' σ' else Ok σ'
      end
  end.

(** The function [RunGC] hands to [Range]. *)
Definition gcVisit (_ : string) (value : any) (σ : state) : result (bool * state) :=
  match value with
  | NotTask => Panic nilDereference
  | TaskPtr None => Panic nilDereference
  | TaskPtr (Some l) =>
      let task := heap σ l in
      (* If task state is TaskStateLeave, it will be reclaimed. *)
      if fsm.Is (FSM task) fsm.TaskStateLeave then
        Ok (true, Delete (ID task) (logInfo l "task has been reclaimed" σ))
      (* If there is no peer then switch the task state to TaskStateLeave. *)
      else if PeerCount task =? 0 then
        match fsm.Event (FSM task) fsm.TaskEventLeave with
        | (_, Some err) => Ok (true, logErrorf l "task fsm event failed: %s" err σ)
        | (f, None) =>
            Ok (true, logInfo l "task peer count is zero, causing the task to leave"
                        (setFSM l f σ))
        end
      else Ok (true, σ)
  end.

(** Try to reclaim task.  The second component is the [error] returned. *)
Definition RunGC (order : list string) (σ : state)
  : result (state * option fsm.Error) :=
  σ' ← Range gcVisit order σ; Ok (σ', None).

(** [order] is an order in which [Range] may walk the map: every key once. *)
Definition rangeOrder (order : list string) (σ : state) : Prop :=
  NoDup order ∧ dom (Map σ) = list_to_set order.

(** The calls of the [TaskManager] interface. *)
Inductive Call : Type :=
| CallLoad (key : string)
| CallStore (task : option loc)
| CallLoadOrStore (task : option loc)
| CallDelete (key : string)
| CallRunGC (order : list string).

Definition call (c : Call) (σ : state) : result state :=
  match c with
  | CallLoad key => _ ← Load key σ; Ok σ
  | CallStore task => Store task σ
  | CallLoadOrStore task => '(_, _, σ') ← LoadOrStore task σ; Ok σ'
  | CallDelete key => Ok (Delete key σ)
  | CallRunGC order => '(σ', _) ← RunGC order σ; Ok σ'
  end.

(** What scheduling logic does to a task behind the manager's back: it
    fires events on its state machine and changes its peer graph. *)
Definition schedule (l : loc) (f : fsm.FSM) (g : dag.graph) (σ : state) : state :=
  let t := heap σ l in
  {| heap := <[l := {| ID := ID t; URL := URL t; FSM := f; DAG := g |}]> (heap σ);
     Map := Map σ;
     log := log σ |}.

(** The states a task manager can be in: built by [newTaskManager], then
    used through its interface while scheduling goes on. *)
Inductive reachable : state → Prop :=
| reachable_new h : reachable (newTaskManager h)
| reachable_call σ c σ' : reachable σ → call c σ = Ok σ' → reachable σ'
| reachable_schedule σ l f g : reachable σ → reachable (schedule l f g σ).

(** Every value in the map is a non-nil [*Task]. *)
Definition typed (σ : state) : Prop :=
  ∀ key value, Map σ !! key = Some value → ∃ l, value = TaskPtr (Some l).

(** Every task is filed under its own ID. *)
Definition keyed (σ : state) : Prop :=
  ∀ key l, Map σ !! key = Some (TaskPtr (Some l)) → ID (heap σ l) = key.

(** [N] callers race on [LoadOrStore]; [sync.Map.LoadOrStore] is atomic, so
    the calls take effect one after the other in some order [schedule].
    The result lists what each caller got back, in that order. *)
Fixpoint raceLoadOrStore (schedule : list loc) (σ : state)
  : result (list (option loc * bool) * state) :=
  match schedule with
  | [] => Ok ([], σ)
  | l :: schedule' =>
      '(stored, loaded, σ') ← LoadOrStore (Some l) σ;
      '(rest, σ'') ← raceLoadOrStore schedule' σ';
      Ok ((stored, loaded) :: rest, σ'')
  end.

(** The task behind [l] is filed in the map, under its own ID. *)
Definition registered (σ : state) (l : loc) : Prop :=
  Map σ !! ID (heap σ l) = Some (TaskPtr (Some l)).

(** The line a visit of the sweep has the logger of the task at [l] write,
    if any. *)
Definition visitLines (l : loc) (t : Task) : list LogLine :=
  if fsm.Is (FSM t) fsm.TaskStateLeave then [LogInfo l "task has been reclaimed"]
  else if PeerCount t =? 0 then
    match (fsm.Event (FSM t) fsm.TaskEventLeave).2 with
    | Some err => [LogErrorf l "task fsm event failed: %s" err]
    | None => [LogInfo l "task peer count is zero, causing the task to leave"]
    end
  else [].

(** The lines a sweep writes when it comes to [key]. *)
Definition sweepLines (σ : state) (key : string) : list LogLine :=
  match Map σ !! key with
  | Some (TaskPtr (Some l)) => visitLines l (heap σ l)
  | _ => []
  end.

(** *** Concrete registries

    Tasks 1, 2 and 3 share the ID "task-0", every other task is "task-1";
    all start out pending and without peers. *)
Definition demoHeap (l : loc) : Task :=
  match l with
  | 1%positive | 2%positive | 3%positive => NewTask "task-0" "https://example.com/a"
  | _ => NewTask "task-1" "https://example.com/b"
  end.

Definition leaveFSM : fsm.FSM := fsm.NewFSM fsm.TaskStateLeave.

(** A machine whose table defines no event at all. *)
Definition stuckFSM : fsm.FSM :=
  {| fsm.current := fsm.TaskStateFailed; fsm.transitions := λ _ _, None |}.

(** Task 1 registered. *)
Definition registered1 : state :=
  {| heap := demoHeap; Map := {[ "task-0" := TaskPtr (Some 1%positive) ]}; log := [] |}.

(** Tasks 1 and 4 registered. *)
Definition registered14 : state :=
  {| heap := demoHeap;
     Map := <[ "task-1" := TaskPtr (Some 4%positive) ]>
              {[ "task-0" := TaskPtr (Some 1%positive) ]};
     log := [] |}.

(** Tasks 1 and 4 registered, task 1 has left. *)
Definition left1 : state := schedule 1%positive leaveFSM dag.empty registered14.

(** Tasks 1 and 4 registered, task 1 has left and task 4 is stuck. *)
Definition stuck4 : state := schedule 4%positive stuckFSM dag.empty left1.

(** Task 1 registered and found without peers by a first sweep, which
    fired Leave on it. *)
Definition fired1 : state :=
  logInfo 1%positive "task peer count is zero, causing the task to leave"
    (setFSM 1%positive leaveFSM registered1).

(** The same registry after a peer joined task 1 again. *)
Definition repopulated : state :=
  schedule 1%positive leaveFSM (dag.AddVertex "peer-0" dag.empty) fired1.

(** Task 1 registered, running, with one peer. *)
Definition busy1 : state :=
  schedule 1%positive (fsm.NewFSM fsm.TaskStateRunning)
    (dag.AddVertex "peer-0" dag.empty) registered1.

(** Task 1 registered, next to a value that is no task, put into the map
    behind the interface's back. *)
Definition corrupted : state :=
  {| heap := demoHeap;
     Map := <[ "task-9" := NotTask ]> {[ "task-0" := TaskPtr (Some 1%positive) ]};
     log := [] |}.

End resource.

(** ** Peer priority *)

Module priority.

(** Modelled from the spec: the priority levels (declared in the API
    package); the tests name levels 0, 1 and 2, and level 0 is the lowest. *)
Inductive Priority : Type :=
| Priority_LEVEL (n : nat).

Definition Priority_LEVEL0 : Priority := Priority_LEVEL 0.
Definition Priority_LEVEL1 : Priority := Priority_LEVEL 1.
Definition Priority_LEVEL2 : Priority := Priority_LEVEL 2.

(** Modelled from the spec: a URL override of section 6, a regex and the
    priority it gives. *)
Record URLPriority : Type := {
  Regex : string;
  UrlValue : Priority
}.

(** Modelled from the spec: the priority of an application, a default value
    and an ordered list of URL overrides. *)
Record ApplicationPriority : Type := {
  Value : Priority;
  Urls : list URLPriority
}.

(** Modelled from the spec: an application as the manager hands it out and
    the tests build it, a name and, optionally, a priority. *)
Record Application : Type := {
  Name : string;
  AppPriority : option ApplicationPriority
}.

(** Modelled from the spec: what [GetApplications()] returns, the list of
    applications or an error. *)
Definition Dynconfig : Type := list Application + string.

(** Modelled from the spec: the part of [Peer] (section 3) that priority
    resolution reads, its application label and its task. *)
Record Peer : Type := {
  PeerID : string;
  PeerApplication : string;
  PeerTask : resource.Task
}.

(** Modelled from the spec: [Peer.GetPriority] as section 4.4 words it (the
    method is in a file that is not among the sources; its test is).
    [matches regex url] stands for the regular-expression match of the URL.
    The first configured application named like the peer's application
    label decides; the first URL override that matches wins over the
    default value; everything else is the lowest level. *)
Definition GetPriority (matches : string → string → bool)
    (dynconfig : Dynconfig) (p : Peer) : Priority :=
  match dynconfig with
  | inr _ => Priority_LEVEL0
  | inl applications =>
      match find (λ a, bool_decide (Name a = PeerApplication p)) applications with
      | None => Priority_LEVEL0
      | Some application =>
          match AppPriority application with
          | None => Priority_LEVEL0
          | Some pr =>
              match find (λ u, matches (Regex u) (resource.URL (PeerTask p))) (Urls pr) with
              | Some u => UrlValue u
              | None => Value pr
              end
          end
      end
  end.

(** A pattern without metacharacters matches the texts that contain it. *)
Fixpoint contains (pattern text : string) : bool :=
  String.prefix pattern text
  || match text with
     | EmptyString => false
     | String _ text' => contains pattern text'
     end.

(** The peer the tests start from: no application label. *)
Definition mockPeer : Peer :=
  {| PeerID := "peer"; PeerApplication := EmptyString;
     PeerTask := resource.NewTask "task" "https://example.com" |}.

Definition withApplication (application : string) (p : Peer) : Peer :=
  {| PeerID := PeerID p; PeerApplication := application; PeerTask := PeerTask p |}.

Definition withTaskURL (url : string) (p : Peer) : Peer :=
  {| PeerID := PeerID p; PeerApplication := PeerApplication p;
     PeerTask := {| resource.ID := resource.ID (PeerTask p); resource.URL := url;
                    resource.FSM := resource.FSM (PeerTask p);
                    resource.DAG := resource.DAG (PeerTask p) |} |}.

End priority.

(** ** crypto/md5 *)

Module md5.

(** MD5 (RFC 1321) on 32-bit words kept in [N], every sum reduced modulo
    [2 ^ 32]. *)
Definition mask32 (x : N) : N := (x `mod` 2 ^ 32)%N.

Definition rotl (x s : N) : N :=
  mask32 (N.lor (N.shiftl x s) (N.shiftr x (32 - s))).

Definition not32 (x : N) : N := N.lxor x 0xffffffff.

Definition K : list N :=
  [0xd76aa478; 0xe8c7b756; 0x242070db; 0xc1bdceee;
   0xf57c0faf; 0x4787c62a; 0xa8304613; 0xfd469501;
   0x698098d8; 0x8b44f7af; 0xffff5bb1; 0x895cd7be;
   0x6b901122; 0xfd987193; 0xa679438e; 0x49b40821;
   0xf61e2562; 0xc040b340; 0x265e5a51; 0xe9b6c7aa;
   0xd62f105d; 0x02441453; 0xd8a1e681; 0xe7d3fbc8;
   0x21e1cde6; 0xc33707d6; 0xf4d50d87; 0x455a14ed;
   0xa9e3e905; 0xfcefa3f8; 0x676f02d9; 0x8d2a4c8a;
   0xfffa3942; 0x8771f681; 0x6d9d6122; 0xfde5380c;
   0xa4beea44; 0x4bdecfa9; 0xf6bb4b60; 0xbebfbc70;
   0x289b7ec6; 0xeaa127fa; 0xd4ef3085; 0x04881d05;
   0xd9d4d039; 0xe6db99e5; 0x1fa27cf8; 0xc4ac5665;
   0xf4292244; 0x432aff97; 0xab9423a7; 0xfc93a039;
   0x655b59c3; 0x8f0ccc92; 0xffeff47d; 0x85845dd1;
   0x6fa87e4f; 0xfe2ce6e0; 0xa3014314; 0x4e0811a1;
   0xf7537e82; 0xbd3af235; 0x2ad7d2bb; 0xeb86d391]%N.

Definition shifts : list N :=
  [7; 12; 17; 22; 7; 12; 17; 22; 7; 12; 17; 22; 7; 12; 17; 22;
   5; 9; 14; 20; 5; 9; 14; 20; 5; 9; 14; 20; 5; 9; 14; 20;
   4; 11; 16; 23; 4; 11; 16; 23; 4; 11; 16; 23; 4; 11; 16; 23;
   6; 10; 15; 21; 6; 10; 15; 21; 6; 10; 15; 21; 6; 10; 15; 21]%N.

Definition step (M : list N) (st : N * N * N * N) (i : nat) : N * N * N * N :=
  let '(a, b, c, d) := st in
  let f :=
    if (i <? 16)%nat then N.lor (N.land b c) (N.land (not32 b) d)
    else if (i <? 32)%nat then N.lor (N.land d b) (N.land (not32 d) c)
    else if (i <? 48)%nat then N.lxor b (N.lxor c d)
    else N.lxor c (N.lor b (not32 d)) in
  let g :=
    if (i <? 16)%nat then i
    else if (i <? 32)%nat then (5 * i + 1) `mod` 16
    else if (i <? 48)%nat then (3 * i + 5) `mod` 16
    else (7 * i) `mod` 16 in
  let f' := mask32 (f + a + nth i K 0 + nth g M 0)%N in
  (d, mask32 (b + rotl f' (nth i shifts 0%N))%N, b, c).

Definition compress (st : N * N * N * N) (M : list N) : N * N * N * N :=
  let '(a0, b0, c0, d0) := st in
  let '(a, b, c, d) := foldl (step M) st (seq 0 64) in
  (mask32 (a0 + a), mask32 (b0 + b), mask32 (c0 + c), mask32 (d0 + d))%N.

(** Little-endian words of a byte sequence and back. *)
Fixpoint words (bs : list N) : list N :=
  match bs with
  | b0 :: b1 :: b2 :: b3 :: rest =>
      (b0 + 256 * b1 + 65536 * b2 + 16777216 * b3)%N :: words rest
  | _ => []
  end.

Definition bytesLE (n : nat) (x : N) : list N :=
  (λ i, (N.shiftr x (8 * N.of_nat i) `mod` 256)%N) <$> seq 0 n.

Definition pad (bs : list N) : list N :=
  let len := length bs in
  bs ++ [128%N] ++ replicate ((55 + 64 - len `mod` 64) `mod` 64) 0%N
     ++ bytesLE 8 (8 * N.of_nat len).

Fixpoint blocks (fuel : nat) (ws : list N) (st : N * N * N * N) : N * N * N * N :=
  match fuel, ws with
  | S fuel', _ :: _ => blocks fuel' (drop 16 ws) (compress st (take 16 ws))
  | _, _ => st
  end.

Definition bytesOf (s : string) : list N := N_of_ascii <$> String.list_ascii_of_string s.

Definition stringOf (bs : list N) : string := String.string_of_list_ascii (ascii_of_N <$> bs).

(** [md5.Sum]: the 16 bytes of the hash. *)
Definition Sum (data : string) : string :=
  let ws := words (pad (bytesOf data)) in
  let '(a, b, c, d) :=
    blocks (length ws) ws (0x67452301, 0xefcdab89, 0x98badcfe, 0x10325476)%N in
  stringOf (bytesLE 4 a ++ bytesLE 4 b ++ bytesLE 4 c ++ bytesLE 4 d).

End md5.

(** ** The piece downloader *)

Module piece.

(** Byte sequences are strings, as in Go. *)

Definition hexDigit (n : N) : ascii :=
  default "0"%char (String.get (N.to_nat n) "0123456789abcdef").

(** [hex.EncodeToString]: two lowercase hexadecimal digits per byte. *)
Fixpoint EncodeToString (src : string) : string :=
  match src with
  | EmptyString => EmptyString
  | String c rest =>
      String (hexDigit (N_of_ascii c / 16))
        (String (hexDigit (N_of_ascii c mod 16)) (EncodeToString rest))
  end.

(** Modelled from the spec: the digest of a body under the hash [sum], the
    "lowercase-hex first-16-bytes" of the hash; the test computes it with
    MD5. *)
Definition digestOf (sum : string → string) (body : string) : string :=
  EncodeToString (String.substring 0 16 (sum body)).

(** Modelled from the spec: the piece descriptor of section 4.7, with the
    fields the test fills in; [RangeStart] is a uint64 and [RangeSize] a
    uint32. *)
Record PieceInfo : Type := {
  PieceNum : Z;
  RangeStart : Z;
  RangeSize : Z;
  PieceMd5 : string;
  PieceOffset : Z
}.

(** Modelled from the spec: the request for one piece, with the fields the
    test fills in. *)
Record DownloadPieceRequest : Type := {
  TaskID : string;
  DstPid : string;
  DstAddr : string;
  CalcDigest : bool;
  piece : PieceInfo
}.

(** Modelled from the spec: the error kinds of section 7 that a piece fetch
    raises.  A transport error carries the observed status, if any. *)
Inductive Error : Type :=
| TransportError (status : option nat) (cause : string)
| DigestMismatchError (expected actual : string).

(** Modelled from the spec: the request on the wire as section 6 lays it
    out. *)
Record Request : Type := {
  Method : string;
  Host : string;
  Path : string;
  PeerQuery : option string;
  Range : string
}.

(** Modelled from the spec: the response, a status and a body that
    arrives in chunks. *)
Record Response : Type := {
  StatusCode : nat;
  Body : list string
}.

(** Modelled from the spec: the destination as the downloader sees it; a
    request gets a response or a network failure. *)
Definition RoundTripper : Type := Request → Response + string.

(** Modelled from the spec (section 4.7 and 6): path [/download/] then the
    first three characters of the task ID then the full ID; header
    [Range: bytes=start-end] with the inclusive end [start + size - 1],
    computed on 64 bits. *)
Definition buildRequest (req : DownloadPieceRequest) : Request :=
  let start := RangeStart (piece req) in
  let size := RangeSize (piece req) in
  {| Method := "GET";
     Host := DstAddr req;
     Path := "/download/" +:+ String.substring 0 3 (TaskID req) +:+ "/" +:+ TaskID req;
     PeerQuery := if bool_decide (DstPid req = EmptyString) then None else Some (DstPid req);
     Range := "bytes=" +:+ pretty start +:+ "-"
              +:+ pretty ((start + size - 1) `mod` 2 ^ 64)%Z |}.

(** Modelled from the spec: the stream handed to the caller.  [pending] is
    what the response body still holds, [consumed] what has been read and
    hashed so far, [expect] the digest to compare with once the body is
    drained, if verification was asked for. *)
Record Reader : Type := {
  pending : list string;
  consumed : string;
  expect : option string
}.

(** Modelled from the spec: what a read reports besides the bytes, the end
    of the data or a failure. *)
Inductive ReadStatus : Type :=
| EOF
| Failed (err : Error).

(** Modelled from the spec: what the end of the body amounts to.  Without
    verification it is the end of the data; with it, the digest of all
    bytes read decides between the end of the data and a mismatch. *)
Definition verify (sum : string → string) (consumed : string) (expect : option string)
  : ReadStatus :=
  match expect with
  | None => EOF
  | Some expected =>
      if bool_decide (digestOf sum consumed = expected) then EOF
      else Failed (DigestMismatchError expected (digestOf sum consumed))
  end.

(** Modelled from the spec: one read forwards the next chunk at once and
    adds it to the hash; when the body signals its end the digest is
    compared and a mismatch is the error of that last read. *)
Definition Read (sum : string → string) (r : Reader)
  : string * option ReadStatus * Reader :=
  match pending r with
  | chunk :: rest =>
      (chunk, None,
       {| pending := rest; consumed := consumed r +:+ chunk; expect := expect r |})
  | [] => (EmptyString, Some (verify sum (consumed r) (expect r)), r)
  end.

(** [io.ReadAll]: read until end of data or failure; end of data is not an
    error.  [fuel] bounds the number of reads. *)
Fixpoint readLoop (sum : string → string) (fuel : nat) (r : Reader) (data : string)
  : option (string * option Error) :=
  match fuel with
  | O => None
  | S fuel' =>
      match Read sum r with
      | (chunk, None, r') => readLoop sum fuel' r' (data +:+ chunk)
      | (chunk, Some EOF, _) => Some (data +:+ chunk, None)
      | (chunk, Some (Failed err), _) => Some (data +:+ chunk, Some err)
      end
  end.

Definition ReadAll (sum : string → string) (r : Reader) : option (string * option Error) :=
  readLoop sum (S (length (pending r))) r EmptyString.

(** The outcomes of the first [n] reads of a stream. *)
Fixpoint reads (sum : string → string) (n : nat) (r : Reader)
  : list (string * option ReadStatus) :=
  match n with
  | O => []
  | S n' => let '(chunk, status, r') := Read sum r in (chunk, status) :: reads sum n' r'
  end.

(** All chunks of a body, one after the other. *)
Definition joined (chunks : list string) : string := foldr String.append EmptyString chunks.

(** Modelled from the spec: "success responses are 200 or 206". *)
Definition successStatus (status : nat) : bool :=
  bool_decide (status = 200) || bool_decide (status = 206).

(** Modelled from the spec: [DownloadPiece] (section 4.7).  It sends the
    request, requires a success status, and wraps the body in the
    digest-checking reader when [CalcDigest] is set.  The first component
    lists the requests sent. *)
Definition DownloadPiece (do : RoundTripper) (req : DownloadPieceRequest)
  : list Request * (Reader + Error) :=
  let request := buildRequest req in
  ([request],
   match do request with
   | inr cause => inr (TransportError None cause)
   | inl resp =>
       if successStatus (StatusCode resp) then
         inl {| pending := Body resp; consumed := EmptyString;
                expect := if CalcDigest req then Some (PieceMd5 (piece req)) else None |}
       else inr (TransportError (Some (StatusCode resp)) "bad response status")
   end).

(** *** The first case of [TestPieceDownloader_DownloadPiece] *)

Definition testContent : string := "test test ".

Definition testRequest (digest : string) : DownloadPieceRequest :=
  {| TaskID := "task-0"; DstPid := EmptyString; DstAddr := "127.0.0.1:65001";
     CalcDigest := true;
     piece := {| PieceNum := 0; RangeStart := 0; RangeSize := 10;
                 PieceMd5 := digest; PieceOffset := 0 |} |}.

(** The test's handler: it answers with the ten bytes, here in two chunks,
    and status 200. *)
Definition testServer : RoundTripper :=
  λ _, inl {| StatusCode := 200; Body := ["test "; "test "] |}.

End piece.

(* ===================================================================== *)
(** * Part II: properties                                                 *)
(* ===================================================================== *)

Module dag_facts.
Import dag.

Lemma search_sound fuel es from to :
  search fuel es from to = true → rtc (λ a b, (a, b) ∈ es) from to.
Proof.
  revert from. induction fuel as [|fuel IH]; intros from; cbn; [done|].
  intros [Heq|Hex]%orb_prop.
  - apply bool_decide_eq_true in Heq as ->. done.
  - apply existsb_exists in Hex as ([a b] & Hin & [Ha Hb]%andb_prop).
    apply bool_decide_eq_true in Ha. cbn in *. subst a.
    eapply rtc_l; [|by apply IH]. by apply list_elem_of_In.
Qed.

(** With no cycle around, a walk from [from] never returns to a vertex it
    has left, so as many steps as there are vertices within reach suffice. *)
Lemma search_complete es :
  (∀ a b, (a, b) ∈ es → ¬ rtc (λ a b, (a, b) ∈ es) b a) →
  ∀ fuel (within : gset string) from to,
    size within ≤ fuel →
    (∀ x, rtc (λ a b, (a, b) ∈ es) from x → x ∈ within) →
    rtc (λ a b, (a, b) ∈ es) from to →
    search fuel es from to = true.
Proof.
  intros Hacyclic. induction fuel as [|fuel IH]; intros within from to Hsize Hin Hreach.
  - assert (from ∈ within) as Hfrom by by apply Hin.
    assert (size within = 0) as Hempty%size_empty_inv by lia. set_solver.
  - cbn. apply orb_true_iff.
    apply rtc_inv in Hreach as [->|(next & Hstep & Hreach)].
    + left. by apply bool_decide_eq_true.
    + right. apply existsb_exists. exists (from, next).
      split; [by apply list_elem_of_In|]. cbn.
      apply andb_true_iff. split; [by apply bool_decide_eq_true|].
      apply (IH (within ∖ {[from]})); [| |done].
      * assert (from ∈ within) as Hfrom by by apply Hin.
        rewrite size_difference by set_solver. rewrite size_singleton.
        assert (size within ≠ 0); [|lia].
        apply size_non_empty_iff. set_solver.
      * intros x Hx. apply elem_of_difference. split.
        -- apply Hin. by eapply rtc_l.
        -- intros ->%elem_of_singleton. by apply (Hacyclic _ _ Hstep).
Qed.

(** On a well-formed graph the bounded traversal decides reachability. *)
Lemma reachable_spec g from to :
  wellFormed g → from ∈ vertices g →
  reachable g from to = true ↔ rtc (edge g) from to.
Proof.
  intros (Hnd & Hclosed & Hacyclic) Hfrom. split; [apply search_sound|].
  intros Hreach.
  apply (search_complete _ Hacyclic _ (list_to_set (vertices g))); [| |done].
  - unfold VertexCount. by rewrite size_list_to_set.
  - intros x Hx. apply elem_of_list_to_set.
    apply rtc_inv_r in Hx as [<-|(prev & _ & Hlast)]; [done|].
    by apply Hclosed in Hlast as [_ ?].
Qed.

Lemma wellFormed_empty : wellFormed empty.
Proof.
  split_and!; cbn.
  - apply NoDup_nil_2.
  - intros a b Hin. by apply elem_of_nil in Hin.
  - intros a b Hin. by apply elem_of_nil in Hin.
Qed.

Lemma wellFormed_AddVertex id g : wellFormed g → wellFormed (AddVertex id g).
Proof.
  intros (Hnd & Hclosed & Hacyclic). unfold AddVertex.
  case_bool_decide as Hin; [done|]. split_and!; cbn.
  - apply NoDup_app. split_and!; [done| |apply NoDup_singleton].
    intros x Hx ->%list_elem_of_singleton. done.
  - intros a b Hab. destruct (Hclosed a b Hab) as [Ha Hb].
    split; apply elem_of_app; by left.
  - exact Hacyclic.
Qed.

(** A walk that may use one more edge [(p, c)] either does without it or
    reaches [p] and goes on from [c]. *)
Lemma rtc_add_edge (es : list (string * string)) p c a b :
  rtc (λ x y, (x, y) ∈ es ++ [(p, c)]) a b →
  rtc (λ x y, (x, y) ∈ es) a b
  ∨ (rtc (λ x y, (x, y) ∈ es) a p ∧ rtc (λ x y, (x, y) ∈ es) c b).
Proof.
  induction 1 as [a|a x b Hstep _ IH]; [by left|].
  apply elem_of_app in Hstep as [Hold|Hnew%list_elem_of_singleton].
  - destruct IH as [IH|[IH1 IH2]].
    + left. by eapply rtc_l.
    + right. split; [by eapply rtc_l | done].
  - simplify_eq. right. split; [done|]. by destruct IH as [IH|[_ IH]].
Qed.

Lemma wellFormed_AddEdge from to g : wellFormed g → wellFormed (AddEdge from to g).1.
Proof.
  intros Hwf. pose proof Hwf as (Hnd & Hclosed & Hacyclic). unfold AddEdge.
  case_bool_decide as Hself; [done|].
  destruct (bool_decide (from ∈ vertices g) && bool_decide (to ∈ vertices g))
    eqn:Hboth; cbn; [|done].
  apply andb_prop in Hboth as [Hfrom%bool_decide_eq_true Hto%bool_decide_eq_true].
  destruct (reachable g to from) eqn:Hreach; [done|].
  case_bool_decide as Hdup; [done|]. cbn.
  assert (¬ rtc (edge g) to from) as Hnot.
  { intros Hr%reachable_spec; [congruence|done..]. }
  split_and!; cbn; [done| |].
  - intros a b [Hab|Hab%list_elem_of_singleton]%elem_of_app.
    + by apply Hclosed.
    + by simplify_eq.
  - intros a b Hab Hback. unfold edge in Hab, Hback. cbn in Hab, Hback.
    apply rtc_add_edge in Hback.
    apply elem_of_app in Hab as [Hab|Hab%list_elem_of_singleton].
    + destruct Hback as [Hback|[Hb1 Hb2]]; [by apply (Hacyclic a b)|].
      apply Hnot. etrans; [exact Hb2|]. by eapply rtc_l.
    + simplify_eq. by destruct Hback as [Hback|[Hback _]].
Qed.

(** An edge that would close a cycle is refused and the graph comes back
    as it was. *)
Lemma AddEdge_cycle from to g :
  wellFormed g → rtc (edge g) to from → AddEdge from to g = (g, Some CycleError).
Proof.
  intros Hwf Hreach. pose proof Hwf as (Hnd & Hclosed & Hacyclic). unfold AddEdge.
  case_bool_decide as Hself; [done|].
  assert (to ∈ vertices g) as Hto.
  { apply rtc_inv in Hreach as [->|(next & Hstep & _)]; [done|].
    by apply Hclosed in Hstep as [? _]. }
  assert (from ∈ vertices g) as Hfrom.
  { apply rtc_inv_r in Hreach as [->|(prev & _ & Hstep)]; [done|].
    by apply Hclosed in Hstep as [_ ?]. }
  rewrite !bool_decide_eq_true_2 by done. cbn.
  by rewrite (proj2 (reachable_spec g to from Hwf Hto) Hreach).
Qed.

Lemma filter_length_le {A} (P Q : A → Prop)
    `{!∀ x, Decision (P x), !∀ x, Decision (Q x)} (l : list A) :
  (∀ x, x ∈ l → P x → Q x) →
  length (filter P l) ≤ length (filter Q l).
Proof.
  induction l as [|y l IH]; intros Himp; [done|].
  rewrite !filter_cons.
  assert (length (filter P l) ≤ length (filter Q l)) as Hle.
  { apply IH. intros x Hx. apply Himp. by right. }
  destruct (decide (P y)) as [Hp|Hp].
  - rewrite decide_True by (apply Himp; [by left|done]). cbn. lia.
  - destruct (decide (Q y)); cbn; lia.
Qed.

Lemma filter_length_lt {A} (P Q : A → Prop)
    `{!∀ x, Decision (P x), !∀ x, Decision (Q x)} (l : list A) x :
  x ∈ l → Q x → ¬ P x →
  (∀ y, y ∈ l → P y → Q y) →
  length (filter P l) < length (filter Q l).
Proof.
  induction l as [|y l IH]; intros Hx Hq Hp Himp.
  { by apply elem_of_nil in Hx. }
  rewrite !filter_cons.
  assert (∀ z, z ∈ l → P z → Q z) as Himp'.
  { intros z Hz. apply Himp. by right. }
  apply elem_of_cons in Hx as [<-|Hx].
  - rewrite decide_False, decide_True by done. cbn.
    pose proof (filter_length_le P Q l Himp'). lia.
  - specialize (IH Hx Hq Hp Himp').
    destruct (decide (P y)) as [Hpy|Hpy].
    + rewrite decide_True by (apply Himp; [by left|done]). cbn. lia.
    + destruct (decide (Q y)); cbn; lia.
Qed.

(** Along an edge the rank grows: whatever reaches the parent reaches the
    child, and the child reaches itself but not the parent. *)
Lemma rank_lt g a b : wellFormed g → edge g a b → rank g a < rank g b.
Proof.
  intros Hwf Hab. pose proof Hwf as (Hnd & Hclosed & Hacyclic).
  destruct (Hclosed a b Hab) as [Ha Hb]. unfold rank.
  apply (filter_length_lt _ _ _ b); [done| | |].
  - by apply reachable_spec.
  - intros Hba%reachable_spec; [|done..]. by apply (Hacyclic a b).
  - intros v Hv Hva%reachable_spec; [|done..].
    apply reachable_spec; [done..|]. by eapply rtc_r.
Qed.

#[local] Instance rank_le_trans g : Transitive (rank_le g).
Proof. intros a b c. unfold rank_le. lia. Qed.

#[local] Instance rank_le_total g : Total (rank_le g).
Proof. intros a b. unfold rank_le. lia. Qed.

Lemma StronglySorted_lookup {A} (R : relation A) (l : list A) i j x y :
  StronglySorted R l → l !! i = Some x → l !! j = Some y → i < j → R x y.
Proof.
  intros Hsorted. revert i j.
  induction Hsorted as [|z l _ IH Hall]; intros i j Hi Hj Hlt; [done|].
  destruct j as [|j]; [lia|]. cbn in Hj. destruct i as [|i]; cbn in Hi.
  - simplify_eq. rewrite Forall_forall in Hall. apply Hall.
    by eapply list_elem_of_lookup_2.
  - apply (IH i j); [done..|lia].
Qed.

(** Sorting the vertices by rank orders them topologically. *)
Lemma toposort_topological g : wellFormed g → topological g (toposort g).
Proof.
  intros Hwf. pose proof Hwf as (Hnd & Hclosed & Hacyclic).
  split; [apply merge_sort_Permutation|].
  intros a b Hab. destruct (Hclosed a b Hab) as [Ha Hb].
  pose proof (rank_lt g a b Hwf Hab) as Hrank.
  assert (a ∈ toposort g) as [i Hi]%list_elem_of_lookup.
  { unfold toposort. by rewrite merge_sort_Permutation. }
  assert (b ∈ toposort g) as [j Hj]%list_elem_of_lookup.
  { unfold toposort. by rewrite merge_sort_Permutation. }
  exists i, j. split_and!; [done..|].
  pose proof (StronglySorted_merge_sort (rank_le g) (vertices g)) as Hsorted.
  destruct (decide (i < j)) as [|Hge]; [done|]. exfalso.
  destruct (decide (i = j)) as [->|Hne].
  - rewrite Hi in Hj. simplify_eq. lia.
  - assert (rank_le g b a) as Hle.
    { apply (StronglySorted_lookup _ _ j i _ _ Hsorted Hj Hi). lia. }
    unfold rank_le in Hle. lia.
Qed.

End dag_facts.

Module resource_facts.
Import resource.

Lemma Task_eta (t : Task) :
  {| ID := ID t; URL := URL t; FSM := FSM t; DAG := DAG t |} = t.
Proof. by destruct t. Qed.

Lemma Event_failed_same f e err :
  (fsm.Event f e).2 = Some err → (fsm.Event f e).1 = f.
Proof. unfold fsm.Event. by destruct (fsm.transitions f e (fsm.current f)). Qed.

Lemma typed_new h : typed (newTaskManager h).
Proof. intros k v. cbn. by rewrite lookup_empty. Qed.

Lemma keyed_new h : keyed (newTaskManager h).
Proof. intros k v. cbn. by rewrite lookup_empty. Qed.

Lemma typed_Delete key σ : typed σ → typed (Delete key σ).
Proof.
  intros Ht k v. cbn. rewrite lookup_delete.
  case_decide; [done | apply Ht].
Qed.

Lemma keyed_Delete key σ : keyed σ → keyed (Delete key σ).
Proof.
  intros Hk k l. cbn. rewrite lookup_delete.
  case_decide; [done | apply Hk].
Qed.

Lemma typed_Store task σ σ' : typed σ → Store task σ = Ok σ' → typed σ'.
Proof.
  intros Ht. destruct task as [l|]; [|done]. intros [= <-] k v. cbn.
  rewrite lookup_insert. case_decide; [|apply Ht].
  intros [= <-]. by exists l.
Qed.

Lemma keyed_Store task σ σ' : keyed σ → Store task σ = Ok σ' → keyed σ'.
Proof.
  intros Hk. destruct task as [l|]; [|done]. intros [= <-] k l'. cbn.
  rewrite lookup_insert. case_decide; [|apply Hk].
  by intros [= <-].
Qed.

Lemma LoadOrStore_state task σ stored loaded σ' :
  LoadOrStore task σ = Ok (stored, loaded, σ') →
  σ' = σ ∨ Store task σ = Ok σ'.
Proof.
  destruct task as [l|]; [|done]. cbn.
  destruct (Map σ !! ID (heap σ l)) as [[p|]|]; cbn; [| done |].
  - intros [= _ _ <-]. by left.
  - intros [= _ _ <-]. by right.
Qed.

(** One visit of the sweep, on a well-formed registry. *)
Lemma gcVisit_spec key value σ :
  typed σ → keyed σ → Map σ !! key = Some value →
  ∃ l σ',
    value = TaskPtr (Some l) ∧ ID (heap σ l) = key ∧
    gcVisit key value σ = Ok (true, σ') ∧
    Map σ' = (if fsm.Is (FSM (heap σ l)) fsm.TaskStateLeave
              then delete key (Map σ) else Map σ) ∧
    (∀ l', l' ≠ l → heap σ' l' = heap σ l') ∧
    heap σ' l = afterVisit (heap σ l) ∧
    log σ `prefix_of` log σ' ∧
    (fsm.Is (FSM (heap σ l)) fsm.TaskStateLeave = false →
     PeerCount (heap σ l) = 0 →
     ∀ err, (fsm.Event (FSM (heap σ l)) fsm.TaskEventLeave).2 = Some err →
       LogErrorf l "task fsm event failed: %s" err ∈ log σ').
Proof.
  intros Ht Hk Hv. destruct (Ht _ _ Hv) as [l ->].
  pose proof (Hk _ _ Hv) as Hid. exists l. unfold afterVisit. cbn.
  destruct (fsm.Is (FSM (heap σ l)) fsm.TaskStateLeave) eqn:Hleave.
  - eexists. rewrite Hid. repeat split; cbn; try done.
    by apply prefix_app_r.
  - destruct (PeerCount (heap σ l) =? 0) eqn:Hcount.
    + unfold fireLeave.
      destruct (fsm.Event (FSM (heap σ l)) fsm.TaskEventLeave) as [f [err|]] eqn:Hev.
      * eexists. repeat split; cbn; try done.
        -- pose proof (Event_failed_same (FSM (heap σ l)) fsm.TaskEventLeave err) as Hsame.
           rewrite Hev in Hsame. cbn in Hsame. rewrite (Hsame eq_refl).
           by rewrite Task_eta.
        -- by apply prefix_app_r.
        -- intros _ _ err' [= <-]. set_solver.
      * eexists. repeat split; cbn; try done.
        -- intros l' Hne. by rewrite fn_lookup_insert_ne.
        -- by rewrite fn_lookup_insert.
        -- by apply prefix_app_r.
    + eexists. repeat split; cbn; try done.
      intros _ Hzero. apply Nat.eqb_neq in Hcount. done.
Qed.

Lemma fireLeave_ID t : ID (fireLeave t) = ID t.
Proof. done. Qed.

(** A visit keeps the registry well-formed. *)
Lemma gcVisit_wf key value σ :
  typed σ → keyed σ → Map σ !! key = Some value →
  ∃ σ', gcVisit key value σ = Ok (true, σ') ∧ typed σ' ∧ keyed σ' ∧
        ∀ l, ID (heap σ' l) = ID (heap σ l).
Proof.
  intros Ht Hk Hv.
  destruct (gcVisit_spec _ _ _ Ht Hk Hv)
    as (l & σ' & -> & Hid & Hrun & Hmap & Hframe & Hl & _).
  exists σ'. split; [done|].
  assert (∀ l', ID (heap σ' l') = ID (heap σ l')) as Hids.
  { intros l'. destruct (decide (l' = l)) as [->|Hne]; [|by rewrite Hframe].
    rewrite Hl. unfold afterVisit. by repeat case_match. }
  split_and!; [| |done].
  - intros k v. rewrite Hmap. case_match; [|apply Ht].
    rewrite lookup_delete. case_decide; [done|apply Ht].
  - intros k l'. rewrite Hmap, Hids. case_match; [|apply Hk].
    rewrite lookup_delete. case_decide; [done|apply Hk].
Qed.

(** A sweep in any order returns and keeps the registry well-formed. *)
Lemma Range_gcVisit_wf order σ :
  typed σ → keyed σ →
  ∃ σ', Range gcVisit order σ = Ok σ' ∧ typed σ' ∧ keyed σ'.
Proof.
  revert σ. induction order as [|key order IH]; intros σ Ht Hk; cbn.
  - by exists σ.
  - destruct (Map σ !! key) as [value|] eqn:Hv; [|by apply IH].
    destruct (gcVisit_wf _ _ _ Ht Hk Hv) as (σ1 & -> & Ht1 & Hk1 & _). cbn.
    by apply IH.
Qed.

Lemma reachable_wf σ : reachable σ → typed σ ∧ keyed σ.
Proof.
  induction 1 as [h|σ c σ' _ [Ht Hk] Hcall|σ l f g _ [Ht Hk]].
  - split; [apply typed_new | apply keyed_new].
  - destruct c as [key|task|task|key|order]; cbn in Hcall.
    + destruct (Load key σ); by simplify_eq/=.
    + split; [by eapply typed_Store | by eapply keyed_Store].
    + destruct (LoadOrStore task σ) as [[[stored loaded] σ'']|] eqn:Hlos;
        simplify_eq/=.
      destruct (LoadOrStore_state _ _ _ _ _ Hlos) as [->|Hst]; [done|].
      split; [by eapply typed_Store | by eapply keyed_Store].
    + simplify_eq. split; [by apply typed_Delete | by apply keyed_Delete].
    + unfold RunGC in Hcall.
      destruct (Range_gcVisit_wf order σ Ht Hk) as (σ1 & Hr & Ht1 & Hk1).
      rewrite Hr in Hcall. by simplify_eq/=.
  - split.
    + intros k v. cbn. apply Ht.
    + intros k l'. cbn. intros Hl'. rewrite <- (Hk _ _ Hl').
      destruct (decide (l = l')) as [->|Hne].
      * by rewrite fn_lookup_insert.
      * by rewrite fn_lookup_insert_ne.
Qed.

Lemma afterVisit_ID t : ID (afterVisit t) = ID t.
Proof. unfold afterVisit. by repeat case_match. Qed.

(** A whole sweep that visits every key of [order] once: what it does to
    each entry of the registry and to each task. *)
Lemma Range_gcVisit_pass order σ :
  typed σ → keyed σ → NoDup order →
  ∃ σ', Range gcVisit order σ = Ok σ' ∧
    (∀ key, key ∉ order → Map σ' !! key = Map σ !! key) ∧
    (∀ key l, key ∈ order → Map σ !! key = Some (TaskPtr (Some l)) →
       Map σ' !! key = (if fsm.Is (FSM (heap σ l)) fsm.TaskStateLeave
                        then None else Some (TaskPtr (Some l))) ∧
       heap σ' l = afterVisit (heap σ l) ∧
       (fsm.Is (FSM (heap σ l)) fsm.TaskStateLeave = false →
        PeerCount (heap σ l) = 0 →
        ∀ err, (fsm.Event (FSM (heap σ l)) fsm.TaskEventLeave).2 = Some err →
          LogErrorf l "task fsm event failed: %s" err ∈ log σ')) ∧
    (∀ l, Map σ !! ID (heap σ l) ≠ Some (TaskPtr (Some l)) ∨ ID (heap σ l) ∉ order →
       heap σ' l = heap σ l) ∧
    log σ `prefix_of` log σ'.
Proof.
  revert σ. induction order as [|k order IH]; intros σ Ht Hk Hnd; cbn.
  { exists σ. split_and!; try done. intros key l Hin. by apply elem_of_nil in Hin. }
  apply NoDup_cons in Hnd as [Hk_fresh Hnd].
  destruct (Map σ !! k) as [value|] eqn:Hv.
  - destruct (gcVisit_spec _ _ _ Ht Hk Hv)
      as (l & σ1 & -> & Hid & Hrun & Hmap & Hframe & Hl & Hlog1 & Herr1).
    destruct (gcVisit_wf _ _ _ Ht Hk Hv) as (σ1' & Hrun' & Ht1 & Hk1 & Hids).
    assert (σ1' = σ1) as -> by congruence. clear Hrun'.
    rewrite Hrun. cbn.
    destruct (IH σ1 Ht1 Hk1 Hnd) as (σ' & -> & Hout & Hin & Hheap & Hlog).
    assert (∀ key, key ≠ k → Map σ1 !! key = Map σ !! key) as Hother.
    { intros key Hne. rewrite Hmap. case_match; [|done]. by rewrite lookup_delete_ne. }
    assert (heap σ' l = heap σ1 l) as Hl'.
    { apply Hheap. right. by rewrite Hids, Hid. }
    exists σ'. split_and!; [done| | | |by etrans].
    + intros key Hnotin. apply not_elem_of_cons in Hnotin as [Hne Hnotin].
      by rewrite Hout, Hother.
    + intros key l0 Hkey Hl0. apply elem_of_cons in Hkey as [->|Hkey].
      * simplify_eq. rewrite Hout by done. rewrite Hl', Hl. split_and!; [|done|].
        -- rewrite Hmap. case_match; [by rewrite lookup_delete_eq|done].
        -- intros Hnl Hzero err Herr. eapply elem_of_prefix; [|exact Hlog].
           by apply Herr1.
      * assert (key ≠ k) as Hne by (by intros ->).
        assert (l0 ≠ l) as Hlne.
        { intros ->. apply Hne. by rewrite <- Hid, (Hk _ _ Hl0). }
        rewrite <- (Hframe l0 Hlne). apply Hin; [done|]. by rewrite Hother.
    + intros l0 Hcond. destruct (decide (l0 = l)) as [->|Hlne].
      * exfalso. destruct Hcond as [Hcond|Hcond].
        -- apply Hcond. by rewrite Hid.
        -- apply Hcond. rewrite Hid. by left.
      * rewrite <- (Hframe l0 Hlne). apply Hheap. rewrite Hids.
        destruct Hcond as [Hcond|Hcond].
        -- left. rewrite Hmap. case_match; [|done].
           rewrite lookup_delete. by case_decide.
        -- right. by apply not_elem_of_cons in Hcond as [_ ?].
  - destruct (IH σ Ht Hk Hnd) as (σ' & -> & Hout & Hin & Hheap & Hlog).
    exists σ'. split_and!; [done| | | |done].
    + intros key Hnotin. apply not_elem_of_cons in Hnotin as [Hne Hnotin].
      by apply Hout.
    + intros key l0 Hkey Hl0. apply elem_of_cons in Hkey as [->|Hkey].
      * by rewrite Hv in Hl0.
      * by apply Hin.
    + intros l0 Hcond. apply Hheap. destruct Hcond as [Hcond|Hcond]; [by left|].
      right. by apply not_elem_of_cons in Hcond as [_ ?].
Qed.

Lemma AddPeerEdge_DAG parent child t :
  DAG (AddPeerEdge parent child t).1 = (dag.AddEdge parent child (DAG t)).1.
Proof. unfold AddPeerEdge. by destruct (dag.AddEdge parent child (DAG t)). Qed.

Lemma graphCalls_wellFormed cs t :
  dag.wellFormed (DAG t) → dag.wellFormed (DAG (graphCalls cs t)).
Proof.
  revert t. induction cs as [|c cs IH]; intros t Hwf; [done|].
  cbn. apply IH. destruct c as [peer|parent child]; cbn.
  - by apply dag_facts.wellFormed_AddVertex.
  - rewrite AddPeerEdge_DAG. by apply dag_facts.wellFormed_AddEdge.
Qed.

(** C2: whatever sequence of [StorePeer] and [AddPeerEdge] calls a task's
    graph has seen, it has no cycle and its vertices can be ordered
    topologically; an [AddPeerEdge(parent, child)] whose edge would close a
    cycle (the parent can be reached from the child, as it trivially can in
    [AddPeerEdge(p, p)]) fails with [CycleError] and returns the task as it
    was. *)
Theorem peer_graph_acyclic id url cs :
  let t := graphCalls cs (NewTask id url) in
  dag.acyclic (DAG t) ∧
  dag.topological (DAG t) (dag.toposort (DAG t)) ∧
  (∀ parent child, rtc (dag.edge (DAG t)) child parent →
     AddPeerEdge parent child t = (t, Some dag.CycleError)) ∧
  (∀ p, AddPeerEdge p p t = (t, Some dag.CycleError)).
Proof.
  intros t.
  assert (dag.wellFormed (DAG t)) as Hwf.
  { apply graphCalls_wellFormed, dag_facts.wellFormed_empty. }
  assert (∀ parent child, rtc (dag.edge (DAG t)) child parent →
            AddPeerEdge parent child t = (t, Some dag.CycleError)) as Hcycle.
  { intros parent child Hreach. unfold AddPeerEdge.
    rewrite (dag_facts.AddEdge_cycle parent child (DAG t) Hwf Hreach).
    by rewrite Task_eta. }
  split_and!; [apply Hwf | by apply dag_facts.toposort_topological | done |].
  intros p. by apply Hcycle.
Qed.

(** The scenarios of [TestPeer_Parents] and [TestPeer_Children]: a stored
    peer has no parents; after [AddPeerEdge(seed, peer)] the peer's parents
    are exactly the seed peer and the seed peer's children exactly the peer;
    the edge back is refused. *)
Example parents_and_children :
  let lone := graphCalls [CallStorePeer "peer"] (NewTask "task" "url") in
  let t := graphCalls [CallStorePeer "peer"; CallStorePeer "seed";
                       CallAddPeerEdge "seed" "peer"] (NewTask "task" "url") in
  dag.Parents "peer" (DAG lone) = [] ∧
  dag.Parents "peer" (DAG t) = ["seed"] ∧
  dag.Children "seed" (DAG t) = ["peer"] ∧
  (AddPeerEdge "peer" "seed" t).2 = Some dag.CycleError ∧
  dag.toposort (DAG t) = ["seed"; "peer"].
Proof. cbv zeta. split_and!; vm_compute; reflexivity. Qed.

(** A chain a, b, c: the edge that would close it into a cycle is refused
    and changes nothing, an edge between peers the task does not know is
    refused as well, and a second parent for c is fine. *)
Example cycle_refused :
  let t := graphCalls [CallStorePeer "a"; CallStorePeer "b"; CallStorePeer "c";
                       CallAddPeerEdge "a" "b"; CallAddPeerEdge "b" "c"]
             (NewTask "task" "url") in
  AddPeerEdge "c" "a" t = (t, Some dag.CycleError) ∧
  AddPeerEdge "a" "a" t = (t, Some dag.CycleError) ∧
  AddPeerEdge "x" "x" t = (t, Some dag.CycleError) ∧
  AddPeerEdge "a" "x" t = (t, Some dag.PeerNotInTask) ∧
  (AddPeerEdge "a" "c" t).2 = None ∧
  dag.Parents "c" (DAG (AddPeerEdge "a" "c" t).1) = ["b"; "a"] ∧
  PeerCount t = 3.
Proof. cbv zeta. split_and!; vm_compute; reflexivity. Qed.

Lemma rangeOrder_NoDup order σ : rangeOrder order σ → NoDup order.
Proof. by intros [? _]. Qed.

Lemma rangeOrder_elem order σ key value :
  rangeOrder order σ → Map σ !! key = Some value → key ∈ order.
Proof.
  intros [_ Hdom] Hv. apply (elem_of_list_to_set (C := gset string)).
  rewrite <- Hdom. by apply elem_of_dom.
Qed.

(** A sweep of a reachable registry: it returns nil, and every entry has
    been dealt with. *)
Lemma RunGC_sweep order σ :
  reachable σ → rangeOrder order σ →
  ∃ σ', RunGC order σ = Ok (σ', None) ∧
    ∀ key l, Map σ !! key = Some (TaskPtr (Some l)) →
      Map σ' !! key = (if fsm.Is (FSM (heap σ l)) fsm.TaskStateLeave
                       then None else Some (TaskPtr (Some l))) ∧
      heap σ' l = afterVisit (heap σ l) ∧
      (fsm.Is (FSM (heap σ l)) fsm.TaskStateLeave = false →
       PeerCount (heap σ l) = 0 →
       ∀ err, (fsm.Event (FSM (heap σ l)) fsm.TaskEventLeave).2 = Some err →
         LogErrorf l "task fsm event failed: %s" err ∈ log σ').
Proof.
  intros [Ht Hk]%reachable_wf Hord.
  destruct (Range_gcVisit_pass order σ Ht Hk (rangeOrder_NoDup _ _ Hord))
    as (σ' & Hrun & _ & Hin & _).
  exists σ'. unfold RunGC. rewrite Hrun. split; [done|].
  intros key l Hl. apply Hin; [|done]. by eapply rangeOrder_elem.
Qed.

(** C1: in every GC pass of the task registry, every task found in the
    Leave state is deleted from the registry; every task not in Leave whose
    peer count is zero has the Leave event fired on its state machine and
    is still in the registry when the pass ends, so a task that became
    empty is deleted in a later pass at the earliest. *)
Theorem RunGC_two_phase order σ :
  reachable σ → rangeOrder order σ →
  ∃ σ', RunGC order σ = Ok (σ', None) ∧
    ∀ key l, Map σ !! key = Some (TaskPtr (Some l)) →
      (fsm.Is (FSM (heap σ l)) fsm.TaskStateLeave = true →
         Map σ' !! key = None) ∧
      (fsm.Is (FSM (heap σ l)) fsm.TaskStateLeave = false →
         Map σ' !! key = Some (TaskPtr (Some l)) ∧
         (PeerCount (heap σ l) = 0 →
            FSM (heap σ' l) = (fsm.Event (FSM (heap σ l)) fsm.TaskEventLeave).1)).
Proof.
  intros Hreach Hord.
  destruct (RunGC_sweep order σ Hreach Hord) as (σ' & Hrun & Hsweep).
  exists σ'. split; [done|]. intros key l Hl.
  destruct (Hsweep key l Hl) as (Hmap & Hheap & _).
  split; intros Hleave; rewrite Hleave in Hmap; [done|].
  split; [done|]. intros Hzero. rewrite Hheap. unfold afterVisit.
  by rewrite Hleave, Hzero.
Qed.

(** The concrete registries are reachable. *)
Lemma reachable_registered1 : reachable registered1.
Proof.
  apply (reachable_call (newTaskManager demoHeap) (CallStore (Some 1%positive)));
    [apply reachable_new | reflexivity].
Qed.

Lemma reachable_registered14 : reachable registered14.
Proof.
  apply (reachable_call registered1 (CallStore (Some 4%positive)));
    [apply reachable_registered1 | reflexivity].
Qed.

Lemma reachable_left1 : reachable left1.
Proof. apply reachable_schedule, reachable_registered14. Qed.

Lemma reachable_stuck4 : reachable stuck4.
Proof. apply reachable_schedule, reachable_left1. Qed.

Lemma reachable_fired1 : reachable fired1.
Proof.
  apply (reachable_call registered1 (CallRunGC ["task-0"]));
    [apply reachable_registered1 | reflexivity].
Qed.

Lemma reachable_repopulated : reachable repopulated.
Proof. apply reachable_schedule, reachable_fired1. Qed.

Lemma rangeOrder_two σ :
  Map σ = Map registered14 → rangeOrder ["task-0"; "task-1"] σ.
Proof.
  intros HM. split.
  - apply NoDup_cons. split; [|apply NoDup_singleton].
    intros Hin%list_elem_of_singleton. discriminate Hin.
  - rewrite HM. cbn. rewrite dom_insert_L, dom_singleton_L. set_solver.
Qed.

Lemma rangeOrder_one σ :
  Map σ = Map registered1 → rangeOrder ["task-0"] σ.
Proof.
  intros HM. split; [apply NoDup_singleton|].
  rewrite HM. cbn. rewrite dom_singleton_L. set_solver.
Qed.

Lemma RunGC_two_phase_witness :
  ∃ σ', RunGC ["task-0"; "task-1"] left1 = Ok (σ', None) ∧
    Map σ' !! "task-0" = None ∧
    Map σ' !! "task-1" = Some (TaskPtr (Some 4%positive)) ∧
    FSM (heap σ' 4%positive) = leaveFSM.
Proof.
  destruct (RunGC_two_phase ["task-0"; "task-1"] left1) as (σ' & Hrun & Hsweep).
  - apply reachable_left1.
  - apply rangeOrder_two. reflexivity.
  - exists σ'. split; [exact Hrun|].
    destruct (Hsweep "task-0" 1%positive eq_refl) as [Hgone _].
    destruct (Hsweep "task-1" 4%positive eq_refl) as [_ Hkept].
    destruct (Hkept eq_refl) as [Hstill Hfired].
    split; [exact (Hgone eq_refl)|]. split; [exact Hstill|].
    exact (Hfired eq_refl).
Defined.

(** Reclamation in two passes: the first sweep finds task 1 without peers
    and fires Leave on it, the second one deletes it. *)
Example two_pass_reclamation :
  RunGC ["task-0"] registered1 = Ok (fired1, None) ∧
  Map fired1 !! "task-0" = Some (TaskPtr (Some 1%positive)) ∧
  ∃ σ', RunGC ["task-0"] fired1 = Ok (σ', None) ∧ Map σ' = ∅.
Proof. split_and!; [reflexivity..|]. eexists. split; reflexivity. Qed.

(** C3 as stated fails: task 1 was left by a first sweep, a peer joined
    it again, and the next sweep deletes it all the same; the peer count
    (1) is not looked at. *)
Lemma RunGC_recheck_counterexample :
  reachable repopulated ∧ rangeOrder ["task-0"] repopulated ∧
  Map repopulated !! "task-0" = Some (TaskPtr (Some 1%positive)) ∧
  fsm.Is (FSM (heap repopulated 1%positive)) fsm.TaskStateLeave = true ∧
  PeerCount (heap repopulated 1%positive) = 1 ∧
  ∃ σ', RunGC ["task-0"] repopulated = Ok (σ', None) ∧
        Map σ' !! "task-0" = None.
Proof.
  split_and!; [apply reachable_repopulated | by apply rangeOrder_one | done..|].
  eexists. split; reflexivity.
Qed.

(** C3, amended: a task that the sweep finds in the Leave state is deleted
    from the registry whatever its peer count [n] is at that time. *)
Theorem RunGC_Leave_deleted order σ key l n :
  reachable σ → rangeOrder order σ →
  Map σ !! key = Some (TaskPtr (Some l)) →
  fsm.Is (FSM (heap σ l)) fsm.TaskStateLeave = true →
  PeerCount (heap σ l) = n →
  ∃ σ', RunGC order σ = Ok (σ', None) ∧ Map σ' !! key = None.
Proof.
  intros Hreach Hord Hl Hleave _.
  destruct (RunGC_sweep order σ Hreach Hord) as (σ' & Hrun & Hsweep).
  exists σ'. split; [done|].
  destruct (Hsweep key l Hl) as (Hmap & _). by rewrite Hleave in Hmap.
Qed.

Lemma RunGC_Leave_deleted_witness :
  ∃ σ', RunGC ["task-0"] repopulated = Ok (σ', None) ∧ Map σ' !! "task-0" = None.
Proof.
  apply (RunGC_Leave_deleted ["task-0"] repopulated "task-0" 1%positive 1).
  - apply reachable_repopulated.
  - apply rangeOrder_one. reflexivity.
  - reflexivity.
  - reflexivity.
  - reflexivity.
Defined.

(** C4: on every registry reached through the interface, [Load] returns
    [(t, true)] exactly when [t] is stored under the id and [(nil, false)]
    exactly when nothing is; [LoadOrStore] returns the stored task with
    [loaded = true] when there is one under [t.ID], and otherwise stores
    [t] and returns [(t, false)]; after [Delete] of an id [Load] of it
    returns [(nil, false)]; after [Store(t)], [Load(t.ID)] returns
    [(t, true)]. *)
Theorem registry_operations σ :
  reachable σ →
  (∀ id l, Load id σ = Ok (Some l, true) ↔ Map σ !! id = Some (TaskPtr (Some l))) ∧
  (∀ id, Load id σ = Ok (None, false) ↔ Map σ !! id = None) ∧
  (∀ l l', Map σ !! ID (heap σ l) = Some (TaskPtr (Some l')) →
     LoadOrStore (Some l) σ = Ok (Some l', true, σ)) ∧
  (∀ l, Map σ !! ID (heap σ l) = None →
     ∃ σ', LoadOrStore (Some l) σ = Ok (Some l, false, σ') ∧
           Load (ID (heap σ l)) σ' = Ok (Some l, true)) ∧
  (∀ id, Load id (Delete id σ) = Ok (None, false)) ∧
  (∀ l, ∃ σ', Store (Some l) σ = Ok σ' ∧
              Load (ID (heap σ l)) σ' = Ok (Some l, true)).
Proof.
  intros [Ht Hk]%reachable_wf. split_and!.
  - intros id l. unfold Load.
    destruct (Map σ !! id) as [value|] eqn:Hv; [|done].
    destruct (Ht _ _ Hv) as [l0 ->]. cbn. split; by intros [= ->].
  - intros id. unfold Load.
    destruct (Map σ !! id) as [value|] eqn:Hv; [|done].
    destruct (Ht _ _ Hv) as [l0 ->]. done.
  - intros l l' Hl. unfold LoadOrStore. by rewrite Hl.
  - intros l Hl. unfold LoadOrStore. rewrite Hl. eexists. split; [done|].
    unfold Load. cbn. by rewrite lookup_insert_eq.
  - intros id. unfold Load. cbn. by rewrite lookup_delete_eq.
  - intros l. eexists. split; [done|].
    unfold Load. cbn. by rewrite lookup_insert_eq.
Qed.

Lemma registry_operations_witness :
  (∀ id l, Load id registered14 = Ok (Some l, true)
           ↔ Map registered14 !! id = Some (TaskPtr (Some l))) ∧
  (∀ id, Load id registered14 = Ok (None, false) ↔ Map registered14 !! id = None) ∧
  (∀ l l', Map registered14 !! ID (heap registered14 l) = Some (TaskPtr (Some l')) →
     LoadOrStore (Some l) registered14 = Ok (Some l', true, registered14)) ∧
  (∀ l, Map registered14 !! ID (heap registered14 l) = None →
     ∃ σ', LoadOrStore (Some l) registered14 = Ok (Some l, false, σ') ∧
           Load (ID (heap registered14 l)) σ' = Ok (Some l, true)) ∧
  (∀ id, Load id (Delete id registered14) = Ok (None, false)) ∧
  (∀ l, ∃ σ', Store (Some l) registered14 = Ok σ' ∧
              Load (ID (heap registered14 l)) σ' = Ok (Some l, true)).
Proof. apply (registry_operations registered14), reachable_registered14. Defined.

(** C5: [RunGC] returns no error, whenever it returns and it does return on
    every reachable registry.  Where firing Leave on a task fails, the error
    is logged, the task stays in the registry as it was, and every other
    entry is swept as usual: tasks in Leave are deleted, the others are kept
    and left as a visit leaves them. *)
Theorem RunGC_returns_nil order σ :
  (∀ σ' err, RunGC order σ = Ok (σ', err) → err = None) ∧
  (reachable σ → rangeOrder order σ →
   ∃ σ', RunGC order σ = Ok (σ', None) ∧
     (∀ key l err,
        Map σ !! key = Some (TaskPtr (Some l)) →
        fsm.Is (FSM (heap σ l)) fsm.TaskStateLeave = false →
        PeerCount (heap σ l) = 0 →
        fsm.Event (FSM (heap σ l)) fsm.TaskEventLeave = (FSM (heap σ l), Some err) →
        Map σ' !! key = Some (TaskPtr (Some l)) ∧
        heap σ' l = heap σ l ∧
        LogErrorf l "task fsm event failed: %s" err ∈ log σ') ∧
     (∀ key l,
        Map σ !! key = Some (TaskPtr (Some l)) →
        Map σ' !! key = (if fsm.Is (FSM (heap σ l)) fsm.TaskStateLeave
                         then None else Some (TaskPtr (Some l))) ∧
        heap σ' l = afterVisit (heap σ l))).
Proof.
  split.
  { intros σ' err. unfold RunGC. destruct (Range gcVisit order σ); cbn; [|done].
    by intros [= _ <-]. }
  intros Hreach Hord.
  destruct (RunGC_sweep order σ Hreach Hord) as (σ' & Hrun & Hsweep).
  exists σ'. split_and!; [done| |].
  - intros key l err Hl Hleave Hzero Hev.
    destruct (Hsweep key l Hl) as (Hmap & Hheap & Hlog).
    rewrite Hleave in Hmap. split_and!; [done| |].
    + rewrite Hheap. unfold afterVisit, fireLeave.
      rewrite Hleave, Hzero, Hev. cbn. apply Task_eta.
    + apply Hlog; [done..|]. by rewrite Hev.
  - intros key l Hl. destruct (Hsweep key l Hl) as (Hmap & Hheap & _). done.
Qed.

Lemma RunGC_returns_nil_witness :
  ∃ σ', RunGC ["task-0"; "task-1"] stuck4 = Ok (σ', None) ∧
    Map σ' !! "task-0" = None ∧
    Map σ' !! "task-1" = Some (TaskPtr (Some 4%positive)) ∧
    heap σ' 4%positive = heap stuck4 4%positive ∧
    LogErrorf 4%positive "task fsm event failed: %s"
      (fsm.StateTransitionError fsm.TaskStateFailed fsm.TaskEventLeave) ∈ log σ'.
Proof.
  destruct (RunGC_returns_nil ["task-0"; "task-1"] stuck4) as [_ Hsweep].
  destruct Hsweep as (σ' & Hrun & Hfail & Hall).
  - apply reachable_stuck4.
  - apply rangeOrder_two. reflexivity.
  - exists σ'. split; [exact Hrun|].
    destruct (Hall "task-0" 1%positive eq_refl) as [Hgone _].
    destruct (Hfail "task-1" 4%positive
                (fsm.StateTransitionError fsm.TaskStateFailed fsm.TaskEventLeave)
                eq_refl eq_refl eq_refl eq_refl) as (Hkept & Hsame & Hlogged).
    split; [exact Hgone|]. split; [exact Hkept|]. split; [exact Hsame|].
    exact Hlogged.
Defined.

Lemma raceLoadOrStore_loaded schedule σ id winner :
  Map σ !! id = Some (TaskPtr (Some winner)) →
  (∀ l, l ∈ schedule → ID (heap σ l) = id) →
  raceLoadOrStore schedule σ
    = Ok (replicate (length schedule) (Some winner, true), σ).
Proof.
  intros Hw. induction schedule as [|l schedule IH]; intros Hid; [done|].
  cbn. rewrite (Hid l) by left. rewrite Hw. cbn.
  rewrite IH; [done|]. intros l' Hl'. apply Hid. by right.
Qed.

(** C9 as stated fails where the ID is registered already: tasks 2 and 3
    share the ID "task-0" with the registered task 1; both callers are
    handed task 1 with [loaded = true], and neither 2 nor 3 is stored. *)
Lemma LoadOrStore_race_counterexample :
  ID (heap registered1 2%positive) = "task-0" ∧
  ID (heap registered1 3%positive) = "task-0" ∧
  raceLoadOrStore [2%positive; 3%positive] registered1
    = Ok ([(Some 1%positive, true); (Some 1%positive, true)], registered1).
Proof. done. Qed.

(** C9, amended: [N ≥ 1] callers race on [LoadOrStore] with tasks that
    share an ID, and the calls take effect in whatever order.  When nothing
    is registered under the ID yet, one of the tasks (that of the first
    call) ends up stored, its caller alone is told [loaded = false], the
    other [N - 1] callers get that same task with [loaded = true], and the
    ID maps to that one task.  When a task is registered under the ID
    already, every caller gets that task with [loaded = true] and the
    registry stays as it is. *)
Theorem LoadOrStore_race callers schedule σ id :
  callers ≠ [] →
  (∀ l, l ∈ callers → ID (heap σ l) = id) →
  schedule ≡ₚ callers →
  (Map σ !! id = None →
   ∃ winner σ',
     winner ∈ callers ∧
     raceLoadOrStore schedule σ
       = Ok ((Some winner, false)
               :: replicate (length callers - 1) (Some winner, true), σ') ∧
     Map σ' = <[id := TaskPtr (Some winner)]> (Map σ) ∧
     heap σ' = heap σ) ∧
  (∀ stored, Map σ !! id = Some (TaskPtr (Some stored)) →
     raceLoadOrStore schedule σ
       = Ok (replicate (length callers) (Some stored, true), σ)).
Proof.
  intros Hne Hid Hperm.
  assert (∀ l, l ∈ schedule → ID (heap σ l) = id) as Hid'.
  { intros l Hl. apply Hid. by rewrite <- Hperm. }
  split.
  - intros Hfree. destruct schedule as [|winner schedule].
    { apply Permutation_nil_l in Hperm. done. }
    exists winner. eexists. split; [rewrite <- Hperm; by left|].
    cbn. rewrite (Hid' winner) by left. rewrite Hfree. cbn.
    rewrite (raceLoadOrStore_loaded schedule _ id winner); cbn.
    + rewrite <- Hperm. cbn. by rewrite Nat.sub_0_r.
    + by rewrite lookup_insert_eq.
    + intros l Hl. apply Hid'. by right.
  - intros stored Hstored. rewrite <- Hperm.
    by apply (raceLoadOrStore_loaded schedule σ id stored).
Qed.

Lemma LoadOrStore_race_witness :
  ∃ winner σ',
    winner ∈ [1%positive; 2%positive; 3%positive] ∧
    raceLoadOrStore [3%positive; 1%positive; 2%positive] (newTaskManager demoHeap)
      = Ok ((Some winner, false) :: replicate 2 (Some winner, true), σ') ∧
    Map σ' = <["task-0" := TaskPtr (Some winner)]> (Map (newTaskManager demoHeap)) ∧
    heap σ' = heap (newTaskManager demoHeap).
Proof.
  apply (LoadOrStore_race [1%positive; 2%positive; 3%positive]
           [3%positive; 1%positive; 2%positive] (newTaskManager demoHeap) "task-0").
  - discriminate.
  - intros l Hl. repeat (apply elem_of_cons in Hl as [->|Hl]; [reflexivity|]).
    by apply elem_of_nil in Hl.
  - apply (Permutation_cons_app [1%positive; 2%positive] [] 3%positive).
    reflexivity.
  - reflexivity.
Defined.

(** C10: in every registry reached through the typed interface every value
    of the map is a non-nil task pointer, so the sweep never meets a value
    of another type (the one case in which its callback would dereference a
    nil task) and [RunGC] returns, without panic, in whatever order it
    walks the map. *)
Theorem RunGC_never_panics σ :
  reachable σ →
  (∀ key value, Map σ !! key = Some value → ∃ l, value = TaskPtr (Some l)) ∧
  (∀ key, gcVisit key NotTask σ = Panic nilDereference) ∧
  (∀ order, ∃ σ', RunGC order σ = Ok (σ', None)).
Proof.
  intros [Ht Hk]%reachable_wf. split_and!; [exact Ht | done |].
  intros order. destruct (Range_gcVisit_wf order σ Ht Hk) as (σ' & Hrun & _).
  exists σ'. unfold RunGC. by rewrite Hrun.
Qed.

Lemma RunGC_never_panics_witness :
  (∀ key value, Map fired1 !! key = Some value → ∃ l, value = TaskPtr (Some l)) ∧
  (∀ key, gcVisit key NotTask fired1 = Panic nilDereference) ∧
  (∀ order, ∃ σ', RunGC order fired1 = Ok (σ', None)).
Proof. apply (RunGC_never_panics fired1), reachable_fired1. Defined.

(* --------------------------------------------------------------------- *)
(** ** Further properties of the task manager *)

Lemma state_eta (σ : state) : {| heap := heap σ; Map := Map σ; log := log σ |} = σ.
Proof. by destruct σ. Qed.

(** X1: [Store] is last-writer-wins: storing a second task with the same ID
    replaces the first one altogether, the registry is as if only the
    second had been stored, and [Load] returns the second.  [LoadOrStore]
    in its place keeps the first task and hands it back. *)
Theorem Store_last_writer_wins σ l1 l2 :
  ID (heap σ l1) = ID (heap σ l2) →
  ∃ σ1 σ2,
    Store (Some l1) σ = Ok σ1 ∧
    Store (Some l2) σ1 = Ok σ2 ∧
    Store (Some l2) σ = Ok σ2 ∧
    Load (ID (heap σ l1)) σ2 = Ok (Some l2, true) ∧
    LoadOrStore (Some l2) σ1 = Ok (Some l1, true, σ1).
Proof.
  intros Hid. eexists. eexists. split; [done|]. cbn. split_and!.
  - done.
  - rewrite <- Hid. by rewrite insert_insert_eq.
  - unfold Load. cbn. rewrite <- Hid. by rewrite lookup_insert_eq.
  - rewrite <- Hid. by rewrite lookup_insert_eq.
Qed.

Lemma Store_last_writer_wins_witness :
  ∃ σ1 σ2,
    Store (Some 1%positive) registered14 = Ok σ1 ∧
    Store (Some 2%positive) σ1 = Ok σ2 ∧
    Store (Some 2%positive) registered14 = Ok σ2 ∧
    Load "task-0" σ2 = Ok (Some 2%positive, true) ∧
    LoadOrStore (Some 2%positive) σ1 = Ok (Some 1%positive, true, σ1).
Proof.
  apply (Store_last_writer_wins registered14 1%positive 2%positive). reflexivity.
Defined.

(** X2: [Delete] undoes [Store]: storing a task under an ID that was free and
    deleting that ID gives back the very registry one started from.
    Deleting an ID nothing is stored under changes nothing, and deleting
    twice is deleting once. *)
Theorem Delete_undoes_Store σ l :
  Map σ !! ID (heap σ l) = None →
  Delete (ID (heap σ l)) σ = σ ∧
  (∃ σ', Store (Some l) σ = Ok σ' ∧
         Load (ID (heap σ l)) σ' = Ok (Some l, true) ∧
         Delete (ID (heap σ l)) σ' = σ) ∧
  (∀ key, Delete key (Delete key σ) = Delete key σ).
Proof.
  intros Hfree. split_and!.
  - unfold Delete. rewrite delete_id by done. apply state_eta.
  - eexists. split; [done|]. split.
    + unfold Load. cbn. by rewrite lookup_insert_eq.
    + unfold Delete. cbn. rewrite delete_insert_id by done. apply state_eta.
  - intros key. unfold Delete. cbn. by rewrite delete_delete_eq.
Qed.

Lemma Delete_undoes_Store_witness :
  Delete "task-1" registered1 = registered1 ∧
  (∃ σ', Store (Some 4%positive) registered1 = Ok σ' ∧
         Load "task-1" σ' = Ok (Some 4%positive, true) ∧
         Delete "task-1" σ' = registered1) ∧
  (∀ key, Delete key (Delete key registered1) = Delete key registered1).
Proof. apply (Delete_undoes_Store registered1 4%positive). reflexivity. Defined.

(** X3: [Store], [LoadOrStore] and [Delete] work on one key: on a registry
    reached through the interface each of them returns, and what [Load]
    returns for any other key is what it returned before. *)
Theorem registry_other_keys σ l key :
  reachable σ →
  key ≠ ID (heap σ l) →
  (∃ σ', Store (Some l) σ = Ok σ' ∧ Load key σ' = Load key σ) ∧
  (∃ stored loaded σ',
     LoadOrStore (Some l) σ = Ok (stored, loaded, σ') ∧ Load key σ' = Load key σ) ∧
  Load key (Delete (ID (heap σ l)) σ) = Load key σ.
Proof.
  intros [Ht Hk]%reachable_wf Hne. split_and!.
  - eexists. split; [done|]. unfold Load. cbn. by rewrite lookup_insert_ne.
  - unfold LoadOrStore.
    destruct (Map σ !! ID (heap σ l)) as [value|] eqn:Hv.
    + destruct (Ht _ _ Hv) as [l' ->]. cbn. by eexists _, _, _.
    + eexists _, _, _. split; [done|]. unfold Load. cbn. by rewrite lookup_insert_ne.
  - unfold Load. cbn. by rewrite lookup_delete_ne.
Qed.

Lemma registry_other_keys_witness :
  (∃ σ', Store (Some 4%positive) registered1 = Ok σ'
         ∧ Load "task-0" σ' = Load "task-0" registered1) ∧
  (∃ stored loaded σ',
     LoadOrStore (Some 4%positive) registered1 = Ok (stored, loaded, σ')
     ∧ Load "task-0" σ' = Load "task-0" registered1) ∧
  Load "task-0" (Delete "task-1" registered1) = Load "task-0" registered1.
Proof.
  apply (registry_other_keys registered1 4%positive "task-0").
  - apply reachable_registered1.
  - discriminate.
Defined.

(** X4: whatever calls were made, the registry files every task under its own
    ID: a task that [Load] finds under an id has that id as its [ID], no
    task is found under two different ids, and [Load] never reports a nil
    task as found. *)
Theorem Load_finds_own_ID σ :
  reachable σ →
  (∀ id l, Load id σ = Ok (Some l, true) → ID (heap σ l) = id) ∧
  (∀ id1 id2 l, Load id1 σ = Ok (Some l, true) → Load id2 σ = Ok (Some l, true) →
     id1 = id2) ∧
  (∀ id, Load id σ ≠ Ok (None, true)).
Proof.
  intros [Ht Hk]%reachable_wf.
  assert (∀ id l, Load id σ = Ok (Some l, true) → Map σ !! id = Some (TaskPtr (Some l)))
    as Hload.
  { intros id l. unfold Load. destruct (Map σ !! id) as [value|] eqn:Hv; [|done].
    destruct (Ht _ _ Hv) as [l' ->]. cbn. by intros [= ->]. }
  split_and!.
  - intros id l Hl. by apply Hk, Hload.
  - intros id1 id2 l H1%Hload%Hk H2%Hload%Hk. congruence.
  - intros id. unfold Load. destruct (Map σ !! id) as [value|] eqn:Hv; [|done].
    destruct (Ht _ _ Hv) as [l' ->]. done.
Qed.

Lemma Load_finds_own_ID_witness :
  (∀ id l, Load id registered14 = Ok (Some l, true) → ID (heap registered14 l) = id) ∧
  (∀ id1 id2 l, Load id1 registered14 = Ok (Some l, true) →
     Load id2 registered14 = Ok (Some l, true) → id1 = id2) ∧
  (∀ id, Load id registered14 ≠ Ok (None, true)).
Proof. apply (Load_finds_own_ID registered14), reachable_registered14. Defined.

(** One visit of a non-nil task pointer, on any registry. *)
Lemma gcVisit_valid key l σ :
  ∃ σ', gcVisit key (TaskPtr (Some l)) σ = Ok (true, σ') ∧
    Map σ' = (if fsm.Is (FSM (heap σ l)) fsm.TaskStateLeave
              then delete (ID (heap σ l)) (Map σ) else Map σ) ∧
    (∀ l', ID (heap σ' l') = ID (heap σ l')) ∧
    log σ' = log σ ++ visitLines l (heap σ l).
Proof.
  unfold gcVisit, visitLines.
  destruct (fsm.Is (FSM (heap σ l)) fsm.TaskStateLeave) eqn:Hleave.
  { eexists. split_and!; done. }
  destruct (PeerCount (heap σ l) =? 0).
  - destruct (fsm.Event (FSM (heap σ l)) fsm.TaskEventLeave) as [f [err|]] eqn:Hev.
    + eexists. split_and!; done.
    + eexists. split_and!; try done. intros l'. cbn.
      destruct (decide (l = l')) as [->|Hne].
      * by rewrite fn_lookup_insert.
      * by rewrite fn_lookup_insert_ne.
  - eexists. split_and!; try done. by rewrite app_nil_r.
Qed.

(** A sweep of a reachable registry, entry by entry and task by task. *)
Lemma RunGC_characterized order σ :
  reachable σ → rangeOrder order σ →
  ∃ σ', RunGC order σ = Ok (σ', None) ∧
    (∀ key, Map σ !! key = None → Map σ' !! key = None) ∧
    (∀ key l, Map σ !! key = Some (TaskPtr (Some l)) →
       Map σ' !! key = (if fsm.Is (FSM (heap σ l)) fsm.TaskStateLeave
                        then None else Some (TaskPtr (Some l)))) ∧
    (∀ l, registered σ l → heap σ' l = afterVisit (heap σ l)) ∧
    (∀ l, ¬ registered σ l → heap σ' l = heap σ l) ∧
    log σ `prefix_of` log σ'.
Proof.
  intros Hreach Hord. pose proof (reachable_wf _ Hreach) as [Ht Hk].
  destruct (Range_gcVisit_pass order σ Ht Hk (rangeOrder_NoDup _ _ Hord))
    as (σ' & Hrun & Hout & Hin & Hheap & Hlog).
  exists σ'. unfold RunGC. rewrite Hrun. split_and!; [done| | | | |done].
  - intros key Hnone. rewrite Hout; [done|]. intros Hkey.
    destruct Hord as [_ Hdom].
    apply (elem_of_list_to_set (C := gset string)) in Hkey.
    rewrite <- Hdom in Hkey. apply elem_of_dom in Hkey as [v Hv]. congruence.
  - intros key l Hl. apply Hin; [|done]. by eapply rangeOrder_elem.
  - intros l Hreg. apply (Hin (ID (heap σ l)) l); [|done]. by eapply rangeOrder_elem.
  - intros l Hreg. apply Hheap. by left.
Qed.

Lemma afterVisit_fields t :
  ID (afterVisit t) = ID t ∧ URL (afterVisit t) = URL t ∧ DAG (afterVisit t) = DAG t.
Proof. unfold afterVisit. by repeat case_match. Qed.

Lemma registered_dec σ l : registered σ l ∨ ¬ registered σ l.
Proof.
  unfold registered.
  destruct (Map σ !! ID (heap σ l)) as [[[l'|]|]|]; [|by right..].
  destruct (decide (l' = l)) as [->|Hne]; [by left|right]. congruence.
Qed.

(** X5: a sweep only reclaims: it stores nothing and replaces no entry, of no
    task does it change the ID, the URL or the peer graph, it leaves alone
    every task that is not filed in the registry and every task that has
    peers and has not left, and it only adds to the log. *)
Theorem RunGC_only_reclaims order σ :
  reachable σ → rangeOrder order σ →
  ∃ σ', RunGC order σ = Ok (σ', None) ∧
    (∀ key value, Map σ' !! key = Some value → Map σ !! key = Some value) ∧
    (∀ l, ID (heap σ' l) = ID (heap σ l) ∧ URL (heap σ' l) = URL (heap σ l)
          ∧ DAG (heap σ' l) = DAG (heap σ l)) ∧
    (∀ l, ¬ registered σ l → heap σ' l = heap σ l) ∧
    (∀ l, fsm.Is (FSM (heap σ l)) fsm.TaskStateLeave = false →
          PeerCount (heap σ l) ≠ 0 → heap σ' l = heap σ l) ∧
    log σ `prefix_of` log σ'.
Proof.
  intros Hreach Hord. pose proof (reachable_wf _ Hreach) as [Ht Hk].
  destruct (RunGC_characterized order σ Hreach Hord)
    as (σ' & Hrun & Hnone & Hsome & Hreg & Hunreg & Hlog).
  assert (∀ l, heap σ' l = afterVisit (heap σ l) ∨ heap σ' l = heap σ l) as Hcases.
  { intros l. destruct (registered_dec σ l); [left; by apply Hreg | right; by apply Hunreg]. }
  exists σ'. split_and!; [done| | |done| |done].
  - intros key value Hv.
    destruct (Map σ !! key) as [value0|] eqn:Hv0.
    + destruct (Ht _ _ Hv0) as [l ->]. rewrite (Hsome key l Hv0) in Hv.
      by destruct (fsm.Is (FSM (heap σ l)) fsm.TaskStateLeave).
    + rewrite (Hnone key Hv0) in Hv. done.
  - intros l. destruct (Hcases l) as [-> | ->]; [apply afterVisit_fields | done].
  - intros l Hleave Hbusy. destruct (Hcases l) as [-> | ->]; [|done].
    unfold afterVisit. rewrite Hleave.
    by destruct (PeerCount (heap σ l)).
Qed.

Lemma RunGC_only_reclaims_witness :
  ∃ σ', RunGC ["task-0"; "task-1"] left1 = Ok (σ', None) ∧
    (∀ key value, Map σ' !! key = Some value → Map left1 !! key = Some value) ∧
    (∀ l, ID (heap σ' l) = ID (heap left1 l) ∧ URL (heap σ' l) = URL (heap left1 l)
          ∧ DAG (heap σ' l) = DAG (heap left1 l)) ∧
    (∀ l, ¬ registered left1 l → heap σ' l = heap left1 l) ∧
    (∀ l, fsm.Is (FSM (heap left1 l)) fsm.TaskStateLeave = false →
          PeerCount (heap left1 l) ≠ 0 → heap σ' l = heap left1 l) ∧
    log left1 `prefix_of` log σ'.
Proof.
  apply (RunGC_only_reclaims ["task-0"; "task-1"] left1).
  - apply reachable_left1.
  - apply rangeOrder_two. reflexivity.
Defined.

(** X6: a sweep over a registry in which every task has peers and none has
    left does nothing at all: the registry, the tasks and the log are
    exactly as before, in whatever order the map is walked. *)
Theorem RunGC_busy_registry order σ :
  (∀ key value, Map σ !! key = Some value →
     ∃ l, value = TaskPtr (Some l) ∧
          fsm.Is (FSM (heap σ l)) fsm.TaskStateLeave = false ∧
          PeerCount (heap σ l) ≠ 0) →
  RunGC order σ = Ok (σ, None).
Proof.
  intros Hbusy. unfold RunGC.
  assert (Range gcVisit order σ = Ok σ) as ->; [|done].
  induction order as [|key order IH]; cbn; [done|].
  destruct (Map σ !! key) as [value|] eqn:Hv; [|done].
  destruct (Hbusy _ _ Hv) as (l & -> & Hleave & Hpeers). cbn.
  rewrite Hleave. apply Nat.eqb_neq in Hpeers. rewrite Hpeers. cbn. exact IH.
Qed.

Lemma RunGC_busy_registry_witness :
  RunGC ["task-0"] busy1 = Ok (busy1, None).
Proof.
  apply (RunGC_busy_registry ["task-0"] busy1).
  intros key value Hv.
  change (Map busy1) with ({[ "task-0" := TaskPtr (Some 1%positive) ]} : gmap string any) in Hv.
  apply lookup_singleton_Some in Hv as [<- <-].
  exists 1%positive. split; [reflexivity|]. split; [reflexivity|]. discriminate.
Defined.

(** The log of a sweep that visits each key of [order] once. *)
Lemma Range_gcVisit_log order σ :
  typed σ → keyed σ → NoDup order →
  ∃ σ', Range gcVisit order σ = Ok σ' ∧
        log σ' = log σ ++ (order ≫= sweepLines σ).
Proof.
  revert σ. induction order as [|k order IH]; intros σ Ht Hk Hnd.
  { exists σ. split; [done|]. cbn. by rewrite app_nil_r. }
  apply NoDup_cons in Hnd as [Hk_fresh Hnd]. rewrite bind_cons. cbn [Range].
  unfold sweepLines at 1.
  destruct (Map σ !! k) as [value|] eqn:Hv; [|by apply IH].
  destruct (gcVisit_spec _ _ _ Ht Hk Hv)
    as (l & σ1 & -> & Hid & Hrun & Hmap & Hframe & _).
  destruct (gcVisit_wf _ _ _ Ht Hk Hv) as (σ1' & Hrun' & Ht1 & Hk1 & _).
  assert (σ1' = σ1) as -> by congruence. clear Hrun'.
  destruct (gcVisit_valid k l σ) as (σ1' & Hrun' & _ & _ & Hlog1).
  assert (σ1' = σ1) as -> by congruence. clear Hrun'.
  rewrite Hrun. cbn.
  destruct (IH σ1 Ht1 Hk1 Hnd) as (σ' & -> & Hlog).
  exists σ'. split; [done|]. rewrite Hlog, Hlog1, <- app_assoc. do 2 f_equal.
  apply Forall_bind_ext, Forall_forall. intros key Hkey.
  assert (key ≠ k) as Hne by (by intros ->).
  unfold sweepLines.
  assert (Map σ1 !! key = Map σ !! key) as ->.
  { rewrite Hmap. case_match; [|done]. by rewrite lookup_delete_ne. }
  destruct (Map σ !! key) as [[[l'|]|]|] eqn:Hl'; [|done..].
  rewrite Hframe; [done|]. intros ->. apply Hne.
  by rewrite <- Hid, (Hk _ _ Hl').
Qed.

(** X7: what a sweep logs: for every key, in the order of the walk, the one
    line of the task filed there if that task has left or has no peer (it
    was reclaimed, it was made to leave, or the event failed), and nothing
    for a task that has peers.  The lines are those of the tasks as they
    were when the sweep began. *)
Theorem RunGC_log order σ :
  reachable σ → NoDup order →
  ∃ σ', RunGC order σ = Ok (σ', None) ∧
        log σ' = log σ ++ (order ≫= sweepLines σ).
Proof.
  intros [Ht Hk]%reachable_wf Hnd.
  destruct (Range_gcVisit_log order σ Ht Hk Hnd) as (σ' & Hrun & Hlog).
  exists σ'. unfold RunGC. by rewrite Hrun.
Qed.

Lemma RunGC_log_witness :
  ∃ σ', RunGC ["task-1"; "task-0"] stuck4 = Ok (σ', None) ∧
        log σ' = [LogErrorf 4%positive "task fsm event failed: %s"
                    (fsm.StateTransitionError fsm.TaskStateFailed fsm.TaskEventLeave);
                  LogInfo 1%positive "task has been reclaimed"].
Proof.
  apply (RunGC_log ["task-1"; "task-0"] stuck4).
  - apply reachable_stuck4.
  - apply NoDup_cons. split; [|apply NoDup_singleton].
    intros Hin%list_elem_of_singleton. discriminate Hin.
Defined.

(** X8: the order in which a sweep walks the map does not matter: two sweeps
    of the same registry end with the same map and the same tasks, and
    with logs that hold the same lines, possibly in another order. *)
Theorem RunGC_order_independent order1 order2 σ :
  reachable σ → rangeOrder order1 σ → rangeOrder order2 σ →
  ∃ σ1 σ2,
    RunGC order1 σ = Ok (σ1, None) ∧
    RunGC order2 σ = Ok (σ2, None) ∧
    Map σ1 = Map σ2 ∧
    (∀ l, heap σ1 l = heap σ2 l) ∧
    log σ1 ≡ₚ log σ2.
Proof.
  intros Hreach Hord1 Hord2. pose proof (reachable_wf _ Hreach) as [Ht Hk].
  destruct (RunGC_characterized order1 σ Hreach Hord1)
    as (σ1 & Hrun1 & Hnone1 & Hsome1 & Hreg1 & Hunreg1 & _).
  destruct (RunGC_characterized order2 σ Hreach Hord2)
    as (σ2 & Hrun2 & Hnone2 & Hsome2 & Hreg2 & Hunreg2 & _).
  destruct (Range_gcVisit_log order1 σ Ht Hk (rangeOrder_NoDup _ _ Hord1))
    as (σ1' & Hrun1' & Hlog1).
  assert (σ1' = σ1) as ->.
  { unfold RunGC in Hrun1. rewrite Hrun1' in Hrun1. by injection Hrun1. }
  destruct (Range_gcVisit_log order2 σ Ht Hk (rangeOrder_NoDup _ _ Hord2))
    as (σ2' & Hrun2' & Hlog2).
  assert (σ2' = σ2) as ->.
  { unfold RunGC in Hrun2. rewrite Hrun2' in Hrun2. by injection Hrun2. }
  exists σ1, σ2. split_and!; [done..| | |].
  - apply map_eq. intros key.
    destruct (Map σ !! key) as [value|] eqn:Hv.
    + destruct (Ht _ _ Hv) as [l ->]. by rewrite (Hsome1 _ _ Hv), (Hsome2 _ _ Hv).
    + by rewrite (Hnone1 _ Hv), (Hnone2 _ Hv).
  - intros l. destruct (registered_dec σ l) as [Hreg|Hreg].
    + by rewrite Hreg1, Hreg2.
    + by rewrite Hunreg1, Hunreg2.
  - rewrite Hlog1, Hlog2. apply Permutation_app_head.
    assert (order1 ≡ₚ order2) as ->; [|done].
    destruct Hord1 as [Hnd1 Hdom1], Hord2 as [Hnd2 Hdom2].
    apply NoDup_Permutation; [done..|]. intros key.
    rewrite <- !(elem_of_list_to_set (C := gset string)). by rewrite <- Hdom1, <- Hdom2.
Qed.

Lemma rangeOrder_two_swapped σ :
  Map σ = Map registered14 → rangeOrder ["task-1"; "task-0"] σ.
Proof.
  intros HM. split.
  - apply NoDup_cons. split; [|apply NoDup_singleton].
    intros Hin%list_elem_of_singleton. discriminate Hin.
  - rewrite HM. cbn. rewrite dom_insert_L, dom_singleton_L. set_solver.
Qed.

Lemma RunGC_order_independent_witness :
  ∃ σ1 σ2,
    RunGC ["task-0"; "task-1"] stuck4 = Ok (σ1, None) ∧
    RunGC ["task-1"; "task-0"] stuck4 = Ok (σ2, None) ∧
    Map σ1 = Map σ2 ∧
    (∀ l, heap σ1 l = heap σ2 l) ∧
    log σ1 ≡ₚ log σ2.
Proof.
  apply (RunGC_order_independent ["task-0"; "task-1"] ["task-1"; "task-0"] stuck4).
  - apply reachable_stuck4.
  - apply rangeOrder_two. reflexivity.
  - apply rangeOrder_two_swapped. reflexivity.
Defined.

(** X9: reclamation takes two sweeps: a registered task without peers whose
    machine goes to Leave on the Leave event is still registered after the
    sweep that finds it, and is gone after the next sweep, if scheduling
    leaves the registry alone in between. *)
Theorem RunGC_reclaims_in_two_sweeps order1 σ key l :
  reachable σ → rangeOrder order1 σ →
  Map σ !! key = Some (TaskPtr (Some l)) →
  fsm.Is (FSM (heap σ l)) fsm.TaskStateLeave = false →
  PeerCount (heap σ l) = 0 →
  fsm.Is (fsm.Event (FSM (heap σ l)) fsm.TaskEventLeave).1 fsm.TaskStateLeave = true →
  ∃ σ1, RunGC order1 σ = Ok (σ1, None) ∧
    Map σ1 !! key = Some (TaskPtr (Some l)) ∧
    ∀ order2, rangeOrder order2 σ1 →
      ∃ σ2, RunGC order2 σ1 = Ok (σ2, None) ∧ Map σ2 !! key = None.
Proof.
  intros Hreach Hord1 Hl Hstay Hzero Hleft.
  destruct (RunGC_sweep order1 σ Hreach Hord1) as (σ1 & Hrun1 & Hsweep1).
  destruct (Hsweep1 key l Hl) as (Hmap1 & Hheap1 & _). rewrite Hstay in Hmap1.
  exists σ1. split_and!; [done..|]. intros order2 Hord2.
  assert (reachable σ1) as Hreach1.
  { apply (reachable_call σ (CallRunGC order1)); [done|]. cbn. by rewrite Hrun1. }
  destruct (RunGC_sweep order2 σ1 Hreach1 Hord2) as (σ2 & Hrun2 & Hsweep2).
  exists σ2. split; [done|].
  destruct (Hsweep2 key l Hmap1) as (Hmap2 & _).
  rewrite Hheap1 in Hmap2. unfold afterVisit in Hmap2.
  rewrite Hstay, Hzero in Hmap2. cbn in Hmap2. by rewrite Hleft in Hmap2.
Qed.

Lemma RunGC_reclaims_in_two_sweeps_witness :
  ∃ σ1, RunGC ["task-0"] registered1 = Ok (σ1, None) ∧
    Map σ1 !! "task-0" = Some (TaskPtr (Some 1%positive)) ∧
    ∀ order2, rangeOrder order2 σ1 →
      ∃ σ2, RunGC order2 σ1 = Ok (σ2, None) ∧ Map σ2 !! "task-0" = None.
Proof.
  apply (RunGC_reclaims_in_two_sweeps ["task-0"] registered1 "task-0" 1%positive).
  - apply reachable_registered1.
  - apply rangeOrder_one. reflexivity.
  - reflexivity.
  - reflexivity.
  - reflexivity.
  - reflexivity.
Defined.

Lemma keyed_gcVisit_valid key l σ σ' :
  keyed σ → Map σ !! key = Some (TaskPtr (Some l)) →
  gcVisit key (TaskPtr (Some l)) σ = Ok (true, σ') →
  keyed σ' ∧ ∀ key', key' ≠ key → Map σ' !! key' = Map σ !! key'.
Proof.
  intros Hk Hl Hrun.
  destruct (gcVisit_valid key l σ) as (σ1 & Hrun1 & Hmap & Hids & _).
  assert (σ1 = σ') as -> by congruence.
  rewrite (Hk _ _ Hl) in Hmap. split.
  - intros key' l'. rewrite Hmap, Hids. case_match; [|apply Hk].
    rewrite lookup_delete. case_decide; [done|apply Hk].
  - intros key' Hne. rewrite Hmap. case_match; [|done]. by rewrite lookup_delete_ne.
Qed.

(** X10: the sweep cannot cope with a value that is not a non-nil task pointer:
    when the map holds one (only code that goes to the embedded map behind
    the interface can put it there) and the walk comes to it, [RunGC]
    panics on a nil dereference; it neither logs the invalid task nor
    returns. *)
Theorem RunGC_invalid_value_panics order σ key value :
  keyed σ →
  key ∈ order →
  Map σ !! key = Some value →
  value = NotTask ∨ value = TaskPtr None →
  RunGC order σ = Panic nilDereference.
Proof.
  intros Hk Hkey Hv Hbad. unfold RunGC.
  assert (Range gcVisit order σ = Panic nilDereference) as ->; [|done].
  revert σ Hk Hv. induction order as [|k order IH]; intros σ Hk Hv.
  { by apply elem_of_nil in Hkey. }
  cbn. destruct (Map σ !! k) as [[[l|]|]|] eqn:Hl; [| done | done |].
  - assert (key ≠ k) as Hne.
    { intros ->. rewrite Hl in Hv. destruct Hbad as [-> | ->]; discriminate Hv. }
    apply elem_of_cons in Hkey as [?|Hkey]; [done|].
    destruct (gcVisit_valid k l σ) as (σ1 & Hrun & _).
    destruct (keyed_gcVisit_valid k l σ σ1 Hk Hl Hrun) as [Hk1 Hother].
    rewrite Hrun. cbn. apply IH; [done..|]. by rewrite Hother.
  - assert (key ≠ k) as Hne by (intros ->; congruence).
    apply elem_of_cons in Hkey as [?|Hkey]; [done|]. by apply IH.
Qed.

Lemma keyed_corrupted : keyed corrupted.
Proof.
  intros key l. unfold corrupted. cbn.
  intros [[_ [=]]|[_ [<- [= <-]]%lookup_singleton_Some]]%lookup_insert_Some.
  reflexivity.
Qed.

Lemma RunGC_invalid_value_panics_witness :
  RunGC ["task-0"; "task-9"] corrupted = Panic nilDereference.
Proof.
  apply (RunGC_invalid_value_panics ["task-0"; "task-9"] corrupted "task-9" NotTask).
  - apply keyed_corrupted.
  - apply elem_of_cons. right. apply elem_of_cons. left. reflexivity.
  - reflexivity.
  - left. reflexivity.
Defined.

End resource_facts.

Module priority_facts.
Import priority.

Section resolution.
Variable matches : string → string → bool.

Lemma find_first {A} (f : A → bool) (before : list A) x (after : list A) :
  (∀ y, y ∈ before → f y = false) → f x = true →
  find f (before ++ x :: after) = Some x.
Proof.
  intros Hbefore Hx. induction before as [|y before IH]; cbn.
  - by rewrite Hx.
  - rewrite (Hbefore y) by left. apply IH. intros z Hz. apply Hbefore. by right.
Qed.

Lemma find_none {A} (f : A → bool) (l : list A) :
  (∀ y, y ∈ l → f y = false) → find f l = None.
Proof.
  induction l as [|y l IH]; intros Hall; cbn; [done|].
  rewrite (Hall y) by left. apply IH. intros z Hz. apply Hall. by right.
Qed.

(** C6: [GetPriority] is a total function into the priority levels (there
    is no error for its caller).  It is the lowest level when the lookup of
    the applications fails, when the list is empty, when no application is
    named like the peer's application label, and when the application that
    is has no priority.  Otherwise the first URL override, in list order,
    whose regex matches the task URL decides, whatever the application's
    default value; with no matching override the default value decides. *)
Theorem GetPriority_resolution (p : Peer) :
  (∀ err, GetPriority matches (inr err) p = Priority_LEVEL0) ∧
  GetPriority matches (inl []) p = Priority_LEVEL0 ∧
  (∀ applications,
     (∀ a, a ∈ applications → Name a ≠ PeerApplication p) →
     GetPriority matches (inl applications) p = Priority_LEVEL0) ∧
  (∀ before application after,
     (∀ a, a ∈ before → Name a ≠ PeerApplication p) →
     Name application = PeerApplication p →
     let applications := before ++ application :: after in
     (AppPriority application = None →
        GetPriority matches (inl applications) p = Priority_LEVEL0) ∧
     (∀ pr, AppPriority application = Some pr →
        (∀ earlier u later,
           Urls pr = earlier ++ u :: later →
           (∀ v, v ∈ earlier → matches (Regex v) (resource.URL (PeerTask p)) = false) →
           matches (Regex u) (resource.URL (PeerTask p)) = true →
           GetPriority matches (inl applications) p = UrlValue u) ∧
        ((∀ v, v ∈ Urls pr → matches (Regex v) (resource.URL (PeerTask p)) = false) →
           GetPriority matches (inl applications) p = Value pr))).
Proof.
  split_and!; [done..| |].
  - intros applications Hnone. unfold GetPriority.
    rewrite find_none; [done|]. intros a Ha. apply bool_decide_eq_false. by apply Hnone.
  - intros before application after Hbefore Hname applications.
    assert (find (λ a, bool_decide (Name a = PeerApplication p)) applications
            = Some application) as Hfind.
    { apply find_first; [|by apply bool_decide_eq_true].
      intros a Ha. apply bool_decide_eq_false. by apply Hbefore. }
    unfold GetPriority. rewrite Hfind. split.
    + by intros ->.
    + intros pr ->. split.
      * intros earlier u later -> Hearlier Hu. by rewrite find_first.
      * intros Hnone. by rewrite find_none.
Qed.

End resolution.

(** The six cases of [TestPeer_GetPriority]. *)
Example GetPriority_tests :
  GetPriority contains (inr "bas") mockPeer = Priority_LEVEL0 ∧
  GetPriority contains (inl []) mockPeer = Priority_LEVEL0 ∧
  GetPriority contains (inl [ {| Name := "baw"; AppPriority := None |} ]) mockPeer
    = Priority_LEVEL0 ∧
  GetPriority contains (inl [ {| Name := "bae"; AppPriority := None |} ])
    (withApplication "bae" mockPeer) = Priority_LEVEL0 ∧
  GetPriority contains
    (inl [ {| Name := "baz";
              AppPriority := Some {| Value := Priority_LEVEL1; Urls := [] |} |} ])
    (withApplication "baz" mockPeer) = Priority_LEVEL1 ∧
  GetPriority contains
    (inl [ {| Name := "bak";
              AppPriority :=
                Some {| Value := Priority_LEVEL1;
                        Urls := [ {| Regex := "am"; UrlValue := Priority_LEVEL2 |} ] |} |} ])
    (withTaskURL "example.com" (withApplication "bak" mockPeer)) = Priority_LEVEL2.
Proof. split_and!; reflexivity. Qed.

End priority_facts.

Module piece_facts.
Import piece.

Lemma append_nil_r (s : string) : s +:+ EmptyString = s.
Proof.
  induction s as [|c s IH]; [done|].
  change (String c (s +:+ EmptyString) = String c s). by f_equal.
Qed.

Lemma append_assoc (s1 s2 s3 : string) : (s1 +:+ s2) +:+ s3 = s1 +:+ s2 +:+ s3.
Proof.
  induction s1 as [|c s1 IH]; [done|].
  change (String c ((s1 +:+ s2) +:+ s3) = String c (s1 +:+ s2 +:+ s3)). by f_equal.
Qed.

Section streams.
Variable sum : string → string.

(** Draining a stream: every chunk comes through as it is, then the end of
    the body is judged on everything that was read. *)
Lemma readLoop_drain chunks fuel read expect data :
  length chunks < fuel →
  readLoop sum fuel {| pending := chunks; consumed := read; expect := expect |} data
  = Some (data +:+ joined chunks,
          match verify sum (read +:+ joined chunks) expect with
          | EOF => None
          | Failed err => Some err
          end).
Proof.
  revert fuel read data.
  induction chunks as [|chunk chunks IH]; intros fuel read data Hfuel.
  - destruct fuel as [|fuel]; [cbn in Hfuel; lia|]. cbn.
    rewrite !append_nil_r. by destruct (verify sum read expect).
  - destruct fuel as [|fuel]; [cbn in Hfuel; lia|]. cbn.
    rewrite IH by (cbn in Hfuel; lia). by rewrite !append_assoc.
Qed.

Lemma reads_drained n read expect :
  reads sum n {| pending := []; consumed := read; expect := expect |}
  = replicate n (EmptyString, Some (verify sum read expect)).
Proof. induction n as [|n IH]; cbn; [done|]. by rewrite IH. Qed.

Lemma reads_drain chunks n read expect :
  reads sum n {| pending := chunks; consumed := read; expect := expect |}
  = take n ((λ chunk, (chunk, None)) <$> chunks)
    ++ replicate (n - length chunks)
         (EmptyString, Some (verify sum (read +:+ joined chunks) expect)).
Proof.
  revert n read. induction chunks as [|chunk chunks IH]; intros n read.
  - rewrite reads_drained. cbn. rewrite append_nil_r, Nat.sub_0_r.
    by destruct n.
  - destruct n as [|n]; [done|]. cbn. rewrite IH. by rewrite append_assoc.
Qed.

(** C7: a piece download with [CalcDigest] set, from a destination that
    answers the GET for path [/download/<taskID[0:3]>/<taskID>] and header
    [Range: bytes=<start>-<start+size-1>] with a success status and a body,
    where the expected digest is the lowercase-hex first 16 bytes of the
    hash of that body: [DownloadPiece] sends exactly that one request,
    returns a stream and no error, and reading the stream to its end yields
    the body unmodified and no error. *)
Theorem DownloadPiece_verified do req status chunks :
  CalcDigest req = true →
  3 ≤ String.length (TaskID req) →
  (0 ≤ RangeStart (piece req))%Z →
  (0 < RangeSize (piece req))%Z →
  (RangeStart (piece req) + RangeSize (piece req) ≤ 2 ^ 64)%Z →
  status = 200 ∨ status = 206 →
  (∀ request,
     Method request = "GET" →
     Path request
       = "/download/" +:+ String.substring 0 3 (TaskID req) +:+ "/" +:+ TaskID req →
     Range request
       = "bytes=" +:+ pretty (RangeStart (piece req)) +:+ "-"
         +:+ pretty (RangeStart (piece req) + RangeSize (piece req) - 1)%Z →
     do request = inl {| StatusCode := status; Body := chunks |}) →
  PieceMd5 (piece req) = digestOf sum (joined chunks) →
  ∃ request reader,
    DownloadPiece do req = ([request], inl reader) ∧
    Method request = "GET" ∧
    Path request
      = "/download/" +:+ String.substring 0 3 (TaskID req) +:+ "/" +:+ TaskID req ∧
    Range request
      = "bytes=" +:+ pretty (RangeStart (piece req)) +:+ "-"
        +:+ pretty (RangeStart (piece req) + RangeSize (piece req) - 1)%Z ∧
    ReadAll sum reader = Some (joined chunks, None).
Proof.
  intros Hcalc _ Hstart Hsize Hend Hstatus Hserver Hdigest.
  assert (Range (buildRequest req)
          = "bytes=" +:+ pretty (RangeStart (piece req)) +:+ "-"
            +:+ pretty (RangeStart (piece req) + RangeSize (piece req) - 1)%Z) as Hrange.
  { cbn. by rewrite Z.mod_small by lia. }
  exists (buildRequest req). eexists. unfold DownloadPiece.
  rewrite (Hserver (buildRequest req) eq_refl eq_refl Hrange). cbn [StatusCode Body].
  assert (successStatus status = true) as ->.
  { by destruct Hstatus as [-> | ->]. }
  split; [done|]. split_and!; [done..|].
  unfold ReadAll. cbn [pending]. rewrite readLoop_drain by lia.
  rewrite Hcalc, Hdigest. cbn. by rewrite bool_decide_eq_true_2.
Qed.

(** C8: a piece download with [CalcDigest] set whose body does not hash to
    the expected digest: the reads hand over the chunks one by one, and the
    read that meets the end of the body fails with the digest mismatch;
    reading to the end returns that error; no read, however many are made,
    ever reports the end of the data, the one signal of success. *)
Theorem DownloadPiece_mismatch do req resp :
  CalcDigest req = true →
  do (buildRequest req) = inl resp →
  successStatus (StatusCode resp) = true →
  PieceMd5 (piece req) ≠ digestOf sum (joined (Body resp)) →
  ∃ reader,
    (DownloadPiece do req).2 = inl reader ∧
    let err := DigestMismatchError (PieceMd5 (piece req))
                 (digestOf sum (joined (Body resp))) in
    ReadAll sum reader = Some (joined (Body resp), Some err) ∧
    reads sum (S (length (Body resp))) reader
      = ((λ chunk, (chunk, None)) <$> Body resp) ++ [(EmptyString, Some (Failed err))] ∧
    ∀ n chunk, (chunk, Some EOF) ∉ reads sum n reader.
Proof.
  intros Hcalc Hdo Hstatus Hdigest. eexists. unfold DownloadPiece. cbn [snd].
  rewrite Hdo, Hstatus, Hcalc. split; [done|]. cbv zeta.
  assert (verify sum (EmptyString +:+ joined (Body resp)) (Some (PieceMd5 (piece req)))
          = Failed (DigestMismatchError (PieceMd5 (piece req))
                      (digestOf sum (joined (Body resp))))) as Hverify.
  { unfold verify. change (EmptyString +:+ joined (Body resp)) with (joined (Body resp)).
    rewrite bool_decide_eq_false_2; [done|]. congruence. }
  split_and!.
  - unfold ReadAll. cbn [pending]. rewrite readLoop_drain by lia. by rewrite Hverify.
  - rewrite reads_drain, Hverify.
    rewrite take_ge by (rewrite length_fmap; lia).
    by replace (S (length (Body resp)) - length (Body resp)) with 1 by lia.
  - intros n chunk. rewrite reads_drain, Hverify.
    intros [Hin%elem_of_take|Hin%elem_of_replicate]%elem_of_app.
    + destruct Hin as (i & Hi & _).
      apply list_lookup_fmap_Some in Hi as (c & Hc & _). discriminate Hc.
    + destruct Hin as [Hin _]. discriminate Hin.
Qed.

End streams.

(** The digest the test computes for its ten bytes. *)
Example testDigest : digestOf md5.Sum testContent = "8f902bcf0625cd1af73789bf207c3880".
Proof. vm_compute. reflexivity. Qed.

(** The scenario of section 8: the destination answers 404, the download
    fails with a transport error that carries the status, and there is no
    stream. *)
Example DownloadPiece_not_found :
  (DownloadPiece (λ _, inl {| StatusCode := 404; Body := [] |})
     (testRequest (digestOf md5.Sum testContent))).2
  = inr (TransportError (Some 404) "bad response status").
Proof. reflexivity. Qed.

(** Without [CalcDigest] the bytes are streamed as received, whatever the
    expected digest says. *)
Example DownloadPiece_unverified :
  ∃ reader,
    (DownloadPiece testServer
       {| TaskID := "task-0"; DstPid := "peer-1"; DstAddr := "127.0.0.1:65001";
          CalcDigest := false;
          piece := {| PieceNum := 0; RangeStart := 0; RangeSize := 10;
                      PieceMd5 := "bad"; PieceOffset := 0 |} |}).2 = inl reader ∧
    ReadAll md5.Sum reader = Some (testContent, None).
Proof. eexists. split; reflexivity. Qed.

Lemma DownloadPiece_verified_witness :
  ∃ request reader,
    DownloadPiece testServer (testRequest (digestOf md5.Sum testContent))
      = ([request], inl reader) ∧
    Method request = "GET" ∧
    Path request = "/download/tas/task-0" ∧
    Range request = "bytes=0-9" ∧
    ReadAll md5.Sum reader = Some (testContent, None).
Proof.
  apply (DownloadPiece_verified md5.Sum testServer
           (testRequest (digestOf md5.Sum testContent)) 200 ["test "; "test "]).
  - reflexivity.
  - cbn. lia.
  - cbn. lia.
  - cbn. lia.
  - cbn. lia.
  - left. reflexivity.
  - intros request _ _ _. reflexivity.
  - reflexivity.
Defined.

Lemma DownloadPiece_mismatch_witness :
  ∃ reader,
    (DownloadPiece testServer (testRequest "00000000000000000000000000000000")).2
      = inl reader ∧
    let err := DigestMismatchError "00000000000000000000000000000000"
                 "8f902bcf0625cd1af73789bf207c3880" in
    ReadAll md5.Sum reader = Some (testContent, Some err) ∧
    reads md5.Sum 3 reader
      = [("test ", None); ("test ", None); (EmptyString, Some (Failed err))] ∧
    ∀ n chunk, (chunk, Some EOF) ∉ reads md5.Sum n reader.
Proof.
  apply (DownloadPiece_mismatch md5.Sum testServer
           (testRequest "00000000000000000000000000000000")
           {| StatusCode := 200; Body := ["test "; "test "] |}).
  - reflexivity.
  - reflexivity.
  - reflexivity.
  - vm_compute. discriminate.
Defined.

End piece_facts.
